(** * The state machine factory of internalgel.js

    A shallow embedding of [intGEL.StateMachineFactory]
    (src/js/internalgel.js, lines 10-83): the closure variable
    [transitions], the helpers [newTransition] and [addPendingTransitions],
    and the three public methods [setTransition], [setTransitions] and
    [build].

    The factory keeps its table in JavaScript arrays used as dictionaries
    ([var transitions = []], [transitions[name] = []]), so a property read
    on the table walks the prototype chain of an array.  The embedding keeps
    that: a read yields an own property, an inherited built-in, the [length]
    of the array, or nothing.  *)

From stdpp Require Import gmap strings list fin_maps.

Local Open Scope string_scope.
Local Open Scope list_scope.

(** ** JavaScript objects, as far as the factory uses them *)

(** What the host gives: the property names found on [Array.prototype] and
    on [Object.prototype] (every one of them holds a function or an object,
    hence a truthy value), and the text that a generated transition function
    converts to when it is used as a property key. *)
Record Engine := {
  arrayProto : string → bool;
  objectProto : string → bool;
  funText : string
}.

(** Names an array finds on its prototype chain. *)
Definition inherits (E : Engine) (k : string) : bool :=
  arrayProto E k || objectProto E k.

Inductive Error := TypeError | RangeError.

(** Result of a piece of code acting on a state of type [S]: it completes,
    it throws (the state is what the code had written so far), or it leaves
    the fragment tracked here: it writes a property of a built-in object,
    reads one beyond its truthiness, needs the numeric value of a [length],
    or reassigns a prototype through [__proto__]. *)
Inductive Step (S : Type) :=
  | Normal (s : S)
  | Threw (e : Error) (s : S)
  | Untracked.
Arguments Normal {S} s.
Arguments Threw {S} e s.
Arguments Untracked {S}.

Definition andThen {S : Type} (x : Step S) (f : S → Step S) : Step S :=
  match x with
  | Normal s => f s
  | Threw e s => Threw e s
  | Untracked => Untracked
  end.

Definition stateOf {S : Type} (x : Step S) : option S :=
  match x with
  | Normal s | Threw _ s => Some s
  | Untracked => None
  end.

(** A property read [o[k]] on an array whose own string-keyed properties
    are [o]. *)
Inductive Slot (A : Type) :=
  | Own (x : A)
  | Inherited
  | Length
  | Absent.
Arguments Own {A} x.
Arguments Inherited {A}.
Arguments Length {A}.
Arguments Absent {A}.

Definition get {A : Type} (E : Engine) (o : gmap string A) (k : string) : Slot A :=
  if decide (k = "length") then Length
  else match o !! k with
       | Some x => Own x
       | None => if inherits E k then Inherited else Absent
       end.

(** ** The table *)

(** Callbacks are identified by a number; what a callback does when it is
    applied is given separately (see [Cmd] below). *)
Definition Action := nat.

(** [{ endState: endState, action: callback }] *)
Record Entry := {
  endState : string;
  action : Action
}.

Abbreviation Inner := (gmap string Entry).
Abbreviation Table := (gmap string (gmap string Entry)).

Global Instance Entry_eq_dec : EqDecision Entry.
Proof. solve_decision. Defined.

(** The entry the code finds for [(name, state)]: an own property of an own
    property. *)
Definition entryAt (E : Engine) (t : Table) (name state : string) : option Entry :=
  match get E t name with
  | Own inner =>
      match get E inner state with
      | Own e => Some e
      | _ => None
      end
  | _ => None
  end.

(** ** [addPendingTransitions] (lines 23-36) *)

(** [if (!transitions[name]) { transitions[name] = []; }]
    When [name] is ["length"] the read yields a number; if that number is 0
    the assignment stores [ToUint32([]) = 0] as the new length, which
    changes nothing. *)
Definition ensureName (E : Engine) (t : Table) (name : string) : Step Table :=
  match get E t name with
  | Absent => Normal (<[name := ∅]> t)
  | Own _ | Inherited | Length => Normal t
  end.

(** [inner[state] = entry] on an inner array: assigning an object to
    [length] is a RangeError, [__proto__] (where the host has it) is a
    setter, every other name becomes or stays an own property. *)
Definition setCell (E : Engine) (inner : Inner) (state : string) (e : Entry) : Step Inner :=
  if decide (state = "length") then Threw RangeError inner
  else if decide (state = "__proto__") then
         if inherits E state then Untracked else Normal (<[state := e]> inner)
  else Normal (<[state := e]> inner).

(** [transitions[name][initialStates[i]] = { ... }]: the base
    [transitions[name]] is read again at every iteration.  An inherited
    built-in as base is written to.  A number as base (the [length]) is a
    TypeError in strict code, unless the property is the [__proto__]
    accessor, whose setter is called instead. *)
Definition assignCell (E : Engine) (t : Table) (name state : string) (e : Entry) : Step Table :=
  match get E t name with
  | Own inner =>
      match setCell E inner state e with
      | Normal inner' => Normal (<[name := inner']> t)
      | Threw err _ => Threw err t
      | Untracked => Untracked
      end
  | Inherited => Untracked
  | Length => if decide (state = "__proto__") then Untracked else Threw TypeError t
  | Absent => Threw TypeError t
  end.

(** The inner [for] loop over [initialStates]. *)
Fixpoint statesLoop (E : Engine) (name : string) (initialStates : list string)
    (e : Entry) (t : Table) : Step Table :=
  match initialStates with
  | [] => Normal t
  | s :: rest => andThen (assignCell E t name s e) (statesLoop E name rest e)
  end.

(** The outer [for] loop over [names]. *)
Fixpoint addPendingTransitions (E : Engine) (names initialStates : list string)
    (endState : string) (callback : Action) (t : Table) : Step Table :=
  match names with
  | [] => Normal t
  | name :: rest =>
      andThen (ensureName E t name) (λ t1,
      andThen (statesLoop E name initialStates
                 {| endState := endState; action := callback |} t1)
              (addPendingTransitions E rest initialStates endState callback))
  end.

(** ** The public registration methods (lines 49-51 and 63) *)

Definition setTransition (E : Engine) (name initialState endState : string)
    (callback : Action) (t : Table) : Step Table :=
  addPendingTransitions E [name] [initialState] endState callback t.

Definition setTransitions := addPendingTransitions.

(** ** Runtimes *)

(** The values a property of a built state machine can hold: the state (a
    string), [undefined], or the function that [newTransition(owner, name)]
    returned. *)
Inductive Val :=
  | VUndefined
  | VString (s : string)
  | VTransition (owner : nat) (name : string).

Global Instance Val_eq_dec : EqDecision Val.
Proof. solve_decision. Defined.

Abbreviation Machine := (gmap string Val).

(** One factory: its closure variable [transitions], shared by the builder
    methods and by every function [newTransition] returned, and the state
    machine objects built so far, addressed by their position. *)
Record World := {
  transitions : Table;
  machines : list (gmap string Val)
}.

Definition withTransitions (w : World) (t : Table) : World :=
  {| transitions := t; machines := machines w |}.

(** The registration methods, acting on the factory. *)
Definition register (E : Engine) (names initialStates : list string)
    (endState : string) (callback : Action) (w : World) : Step World :=
  match addPendingTransitions E names initialStates endState callback (transitions w) with
  | Normal t => Normal (withTransitions w t)
  | Threw err t => Threw err (withTransitions w t)
  | Untracked => Untracked
  end.

(** ** [build] (lines 73-81) *)

(** The names [for (var name in transitions)] visits: the own enumerable
    properties of the array ([length] is not enumerable, and neither is any
    built-in on the prototype chain).  Every iteration writes a different
    property, so the order of the visit does not show in the result. *)
Definition enumerate (t : Table) : list string := (map_to_list t).*1.

Definition build (initialState : string) (w : World) : World * nat :=
  let r := length (machines w) in
  let stateMachine : Machine := {[ "currentState" := VString initialState ]} in
  let stateMachine :=
    foldl (λ sm name, <[name := VTransition r name]> sm) stateMachine
          (enumerate (transitions w)) in
  ({| transitions := transitions w; machines := machines w ++ [stateMachine] |}, r).

(** ** [newTransition] (lines 13-21) *)

(** Arguments of a call are opaque to the factory. *)
Inductive Arg :=
  | AString (s : string)
  | ANumber (z : Z)
  | AUndefined.

(** What a callback may do to the state machines while it runs: read the
    [currentState] of one, or call one of the properties of one. *)
Inductive Cmd :=
  | Read (r : nat)
  | Fire (r : nat) (name : string) (args : list Arg).

(** What is observed of a run: every application of a callback with its
    arguments, and every value a callback read. *)
Inductive Event :=
  | Applied (a : Action) (args : list Arg)
  | Observed (r : nat) (v : Val).

(** [stateMachine.currentState] *)
Definition currentState (w : World) (r : nat) : Val :=
  match machines w !! r with
  | Some sm => default VUndefined (sm !! "currentState")
  | None => VUndefined
  end.

(** [stateMachine.currentState = v] *)
Definition setCurrentState (w : World) (r : nat) (v : Val) : World :=
  {| transitions := transitions w;
     machines := alter (λ sm, <["currentState" := v]> sm) r (machines w) |}.

(** The string a value converts to when it is used as a property key. *)
Definition toKey (E : Engine) (v : Val) : string :=
  match v with
  | VUndefined => "undefined"
  | VString s => s
  | VTransition _ _ => funText E
  end.

Abbreviation Run := (option (Step (World * list Event))).

Section Runtime.
Context (E : Engine).

(** The behaviour of each callback on each argument list. *)
Context (script : Action → list Arg → list Cmd).

(** The statements of a callback, one after the other; [call] runs a
    transition function.  An exception ends the run. *)
Fixpoint runCmds (call : World → nat → string → list Arg → list Event → Run)
    (cmds : list Cmd) (w : World) (tr : list Event) : Run :=
  match cmds with
  | [] => Some (Normal (w, tr))
  | Read r :: rest =>
      runCmds call rest w (tr ++ [Observed r (currentState w r)])
  | Fire r name args :: rest =>
      match machines w !! r with
      | None => Some Untracked
      | Some sm =>
          match sm !! name with
          | Some (VTransition owner name') =>
              match call w owner name' args tr with
              | Some (Normal (w', tr')) => runCmds call rest w' tr'
              | other => other
              end
          | Some (VString _) | Some VUndefined => Some (Threw TypeError (w, tr))
          | None =>
              if objectProto E name then Some Untracked
              else Some (Threw TypeError (w, tr))
          end
      end
  end.

(** The function returned by [newTransition(stateMachine, name)], applied
    to [args].  [None] when the nesting of calls exceeds [fuel]. *)
Fixpoint newTransition (fuel : nat) (w : World) (stateMachine : nat) (name : string)
    (args : list Arg) (tr : list Event) : Run :=
  match fuel with
  | 0 => None
  | S fuel' =>
      match get E (transitions w) name with
      | Absent => Some (Normal (w, tr))
      | Inherited | Length => Some Untracked
      | Own inner =>
          match get E inner (toKey E (currentState w stateMachine)) with
          | Absent => Some (Normal (w, tr))
          | Length => Some Untracked
          | Inherited =>
              (* [transition] is a built-in: [transition.endState] and
                 [transition.action] are undefined *)
              Some (Threw TypeError
                      (setCurrentState w stateMachine VUndefined, tr))
          | Own transition =>
              let w' := setCurrentState w stateMachine
                          (VString (endState transition)) in
              runCmds (newTransition fuel')
                      (script (action transition) args) w'
                      (tr ++ [Applied (action transition) args])
          end
      end
  end.

(** A program outside the factory running [cmds]. *)
Definition exec (fuel : nat) (cmds : list Cmd) (w : World) : Run :=
  runCmds (newTransition fuel) cmds w [].

(** [stateMachine[name](...args)] called from outside. *)
Definition callTransition (fuel : nat) (w : World) (r : nat) (name : string)
    (args : list Arg) : Run :=
  exec fuel [Fire r name args] w.

End Runtime.

(** ** A concrete host and factory *)

(** The names ECMAScript 5.1 puts on the two prototypes, with the
    [__proto__] accessor that browsers add. *)
Definition es5ArrayProto : list string :=
  ["constructor"; "toString"; "toLocaleString"; "concat"; "join"; "pop";
   "push"; "reverse"; "shift"; "slice"; "sort"; "splice"; "unshift";
   "indexOf"; "lastIndexOf"; "every"; "some"; "forEach"; "map"; "filter";
   "reduce"; "reduceRight"].

Definition es5ObjectProto : list string :=
  ["constructor"; "toString"; "toLocaleString"; "valueOf"; "hasOwnProperty";
   "isPrototypeOf"; "propertyIsEnumerable"; "__proto__"].

Definition es5 : Engine := {|
  arrayProto := λ k, bool_decide (k ∈ es5ArrayProto);
  objectProto := λ k, bool_decide (k ∈ es5ObjectProto);
  funText := "function () { if(transitions[name] && transitions[name][stateMachine.currentState]) { var transition = transitions[name][stateMachine.currentState]; stateMachine.currentState = transition.endState; transition.action.apply(null, arguments); } }"
|}.

(** [new intGEL.StateMachineFactory()] *)
Definition StateMachineFactory : World := {| transitions := ∅; machines := [] |}.

(** Callbacks that do not touch the state machines. *)
Definition quiet (_ : Action) (_ : list Arg) : list Cmd := [].

(** ** Notions used in the statements *)

(** A name that an array neither owns from birth nor inherits. *)
Definition plain (E : Engine) (k : string) : Prop :=
  k ≠ "length" ∧ inherits E k = false.

(** Every name of the table is plain: [ensureName] adds a name only when
    the read found nothing.  So [for (var name in transitions)] meets no
    name that a state machine, a plain object, would treat specially, and
    the assignment in [build] makes an own property each time. *)
Definition namesPlain (E : Engine) (t : Table) : Prop :=
  ∀ k, is_Some (t !! k) → plain E k.

(** Running [setTransition] for each pair in turn; an exception or an
    untracked step ends the sequence. *)
Fixpoint eachPair (E : Engine) (pairs : list (string * string)) (endState : string)
    (callback : Action) (t : Table) : Step Table :=
  match pairs with
  | [] => Normal t
  | (name, state) :: rest =>
      andThen (setTransition E name state endState callback t)
              (eachPair E rest endState callback)
  end.

(** The callback applications in a list of events. *)
Fixpoint applications (tr : list Event) : list (Action * list Arg) :=
  match tr with
  | [] => []
  | Applied a args :: rest => (a, args) :: applications rest
  | Observed _ _ :: rest => applications rest
  end.

(** What a run shows of the state machines: their properties and the
    events, not the table. *)
Definition observable (x : option (Step (World * list Event)))
    : option (Step (list (gmap string Val) * list Event)) :=
  match x with
  | Some (Normal (w, tr)) => Some (Normal (machines w, tr))
  | Some (Threw err (w, tr)) => Some (Threw err (machines w, tr))
  | Some Untracked => Some Untracked
  | None => None
  end.

(** Every function stored in a state machine was made for that state
    machine: [build] stores [newTransition(stateMachine, name)] in
    [stateMachine] itself. *)
Definition ownClosures (w : World) : Prop :=
  ∀ r sm k o n,
    machines w !! r = Some sm → sm !! k = Some (VTransition o n) → o = r.


(** ** The factory of the search box, as a running example *)

(** The factory of the search box, cut down to two transitions. *)
Definition searchFactory : World :=
  match register es5 ["search"] ["empty"] "postSearchWithContext" 0 StateMachineFactory with
  | Normal w =>
      match register es5 ["clear"] ["postSearchWithContext"] "preSearchWithoutContent" 1 w with
      | Normal w' => w'
      | _ => w
      end
  | _ => StateMachineFactory
  end.

(** [stateMachineFactory.build('empty')], the first object built. *)
Definition searchWorld : World := (build "empty" searchFactory).1.

Definition searchMachine : gmap string Val := default ∅ (machines searchWorld !! 0).

(** A search callback that reads the state and then clears, and a clear
    callback that reads the state. *)
Definition searchScript (a : Action) (args : list Arg) : list Cmd :=
  match a with
  | 0 => [Read 0; Fire 0 "clear" []]
  | _ => [Read 0]
  end.

(** A registration made after [searchWorld] was built: searching from
    [empty] now leads elsewhere, with another callback. *)
Definition searchWorldLater : World :=
  match register es5 ["search"] ["empty"] "preSearchWithContent" 2 searchWorld with
  | Normal w => w
  | _ => searchWorld
  end.

(** A second state machine from the factory of the search box. *)
Definition twoMachines : World := (build "postSearchWithContext" searchWorld).1.

Definition twoMachinesAfterSearch : World * list Event :=
  match callTransition es5 searchScript 3 twoMachines 0 "search" [AString "foo"] with
  | Some (Normal x) => x
  | _ => (twoMachines, [])
  end.

(** ** Notions used in the further properties *)

Global Instance Error_eq_dec : EqDecision Error.
Proof. solve_decision. Defined.

Global Instance Step_eq_dec {S : Type} `{EqDecision S} : EqDecision (Step S).
Proof. solve_decision. Defined.

Global Instance Arg_eq_dec : EqDecision Arg.
Proof. solve_decision. Defined.

Global Instance Event_eq_dec : EqDecision Event.
Proof. solve_decision. Defined.

Global Instance World_eq_dec : EqDecision World.
Proof. solve_decision. Defined.

(** A state that an inner array takes as an own property. *)
Definition settable (E : Engine) (s : string) : Prop :=
  s ≠ "length" ∧ (s = "__proto__" → inherits E s = false).

Global Instance settable_dec E s : Decision (settable E s).
Proof. unfold settable. apply _. Defined.

(** A name under which the table has, or can get, an inner array. *)
Definition registrable (E : Engine) (t : Table) (n : string) : Prop :=
  n ≠ "length" ∧ (t !! n = None → inherits E n = false).

Global Instance registrable_dec E t n : Decision (registrable E t n).
Proof. unfold registrable. apply _. Defined.

(** An inner array after [inner[s] = e] for every [s] of [states]. *)
Definition setAll (states : list string) (e : Entry) (inner : Inner) : Inner :=
  foldl (λ i s, <[s := e]> i) inner states.

(** One call of [setTransitions]: names, states, end state, callback. *)
Definition Registration : Type := list string * list string * string * Action.

(** A configuration: calls of [setTransitions] one after the other.  A
    call that throws leaves the table as it then is, and the next call
    goes on from there, as for a caller that catches; [None] when a call
    leaves the tracked fragment. *)
Fixpoint registrations (E : Engine) (rs : list Registration) (t : Table) : option Table :=
  match rs with
  | [] => Some t
  | (names, states, endState, callback) :: rest =>
      match stateOf (setTransitions E names states endState callback t) with
      | Some t' => registrations E rest t'
      | None => None
      end
  end.

(** What the factory keeps true of its state machines: a function is
    stored under the name it was made for, in the state machine it was made
    for, that name is a name of the table, and [currentState] is there. *)
Definition wellFormed (E : Engine) (w : World) : Prop :=
  namesPlain E (transitions w)
  ∧ ∀ r sm, machines w !! r = Some sm →
      is_Some (sm !! "currentState")
      ∧ ∀ k o n, sm !! k = Some (VTransition o n) →
          o = r ∧ k = n ∧ is_Some (transitions w !! n).


(** The values [currentState] may take after a run: the one it had, the
    end state of an entry of the table, or [undefined]. *)
Definition statesFromTable (E : Engine) (w w' : World) : Prop :=
  transitions w' = transitions w
  ∧ ∀ r, currentState w' r = currentState w r
         ∨ currentState w' r = VUndefined
         ∨ ∃ n s e, entryAt E (transitions w) n s = Some e
                    ∧ currentState w' r = VString (endState e).

(** The same without [undefined]. *)
Definition endStatesOnly (E : Engine) (w w' : World) : Prop :=
  transitions w' = transitions w
  ∧ ∀ r, currentState w' r = currentState w r
         ∨ ∃ n s e, entryAt E (transitions w) n s = Some e
                    ∧ currentState w' r = VString (endState e).

(** ** The state machine of [Search] (lines 181-207) *)

(** The callbacks, in the order of their first registration: the two
    anonymous functions toggling [focused] (0, 1), [hideContext] (2),
    [showContext] (3), the two anonymous search functions (4, 5),
    [showSearchIcon] (6) and [noOp] (7).  None of them calls the state
    machine: they add and remove classes and set a text (lines 119-150,
    183-199), so a run of this state machine is a run with [quiet]. *)
Definition widgetRegistrations : list Registration :=
  [ (["focus"], ["empty"], "preSearchWithoutContent", 0);
    (["unfocus"], ["preSearchWithoutContent"], "empty", 1);
    (["focus"], ["postSearchWithContext"], "postSearchWithoutContext", 2);
    (["unfocus"], ["postSearchWithoutContext"], "postSearchWithContext", 3);
    (["search"], ["empty"], "postSearchWithContext", 4);
    (["search"], ["preSearchWithContent"], "postSearchWithContext", 5);
    (["clear"], ["postSearchWithoutContext"; "postSearchWithContext"],
     "preSearchWithoutContent", 6);
    (["change"], ["postSearchWithoutContext"], "preSearchWithContent", 6);
    (["clear"], ["preSearchWithContent"], "preSearchWithoutContent", 7);
    (["change"], ["preSearchWithoutContent"], "preSearchWithContent", 7) ].

Definition widgetTable : Table :=
  default ∅ (registrations es5 widgetRegistrations ∅).

(** [stateMachineFactory.build('empty')] *)
Definition widgetWorld : World :=
  (build "empty" {| transitions := widgetTable; machines := [] |}).1.

(** The object that this [build] returned. *)
Definition widgetMachine : gmap string Val := default ∅ (machines widgetWorld !! 0).

(** The state machine of the widget, in state [s]. *)
Definition widgetAt (s : string) : World :=
  setCurrentState widgetWorld 0 (VString s).

Definition widgetStates : list string :=
  ["empty"; "preSearchWithoutContent"; "preSearchWithContent";
   "postSearchWithoutContext"; "postSearchWithContext"].

Definition widgetNames : list string :=
  ["focus"; "unfocus"; "search"; "clear"; "change"].

(** Where the table sends state [s] under the name [n]. *)
Definition widgetNext (s n : string) : string :=
  match entryAt es5 widgetTable n s with
  | Some e => endState e
  | None => s
  end.

(** The calls [stateMachine[n](...args)] for a list of names and
    arguments. *)
Definition fireAll (r : nat) (calls : list (string * list Arg)) : list Cmd :=
  map (λ c, Fire r c.1 c.2) calls.

(** * Properties *)

(** ** Property reads *)

Lemma andThen_Normal {S : Type} (x : Step S) : andThen x Normal = x.
Proof. by destruct x. Qed.

Lemma andThen_assoc {S : Type} (x : Step S) (f g : S → Step S) :
  andThen (andThen x f) g = andThen x (λ s, andThen (f s) g).
Proof. by destruct x. Qed.

Lemma andThen_ext {S : Type} (x : Step S) (f g : S → Step S) :
  (∀ s, f s = g s) → andThen x f = andThen x g.
Proof. intros H. destruct x; simpl; auto. Qed.

Lemma andThen_invariant {S : Type} (P : S → Prop) (x : Step S) (f : S → Step S) s' :
  (∀ s, stateOf x = Some s → P s) →
  (∀ s s1, P s → stateOf (f s) = Some s1 → P s1) →
  stateOf (andThen x f) = Some s' → P s'.
Proof.
  intros Hx Hf. destruct x as [s|err s|]; simpl; [|by auto|done].
  apply Hf. by apply Hx.
Qed.

Lemma get_Own_inv {A : Type} E (o : gmap string A) k x :
  get E o k = Own x → k ≠ "length" ∧ o !! k = Some x.
Proof.
  unfold get. case_decide; [done|].
  destruct (o !! k) as [y|]; [|by destruct (inherits E k)].
  intros [= ->]. done.
Qed.

Lemma get_Own {A : Type} E (o : gmap string A) k x :
  k ≠ "length" → o !! k = Some x → get E o k = Own x.
Proof. intros Hk Hx. unfold get. rewrite decide_False by done. by rewrite Hx. Qed.

Lemma get_Absent_inv {A : Type} E (o : gmap string A) k :
  get E o k = Absent → plain E k ∧ o !! k = None.
Proof.
  unfold get, plain. case_decide; [done|].
  destruct (o !! k); [done|]. by destruct (inherits E k).
Qed.

Lemma get_plain {A : Type} E (o : gmap string A) k :
  plain E k → get E o k = match o !! k with Some x => Own x | None => Absent end.
Proof.
  intros [Hk Hi]. unfold get. rewrite decide_False by done.
  destruct (o !! k); [done|]. by rewrite Hi.
Qed.

Lemma get_Absent_dec {A : Type} E (o : gmap string A) k :
  {get E o k = Absent} + {get E o k ≠ Absent}.
Proof. destruct (get E o k); (by left) || (by right). Qed.

Lemma get_insert_eq {A : Type} E (o : gmap string A) k x :
  k ≠ "length" → get E (<[k := x]> o) k = Own x.
Proof. intros Hk. apply get_Own; [done|]. apply lookup_insert_eq. Qed.

Lemma get_insert_ne {A : Type} E (o : gmap string A) k k' x :
  k ≠ k' → get E (<[k := x]> o) k' = get E o k'.
Proof. intros Hk. unfold get. by rewrite lookup_insert_ne. Qed.

Lemma entryAt_Some E (t : Table) n s e :
  entryAt E t n s = Some e ↔
  n ≠ "length" ∧ s ≠ "length" ∧ ∃ inner, t !! n = Some inner ∧ inner !! s = Some e.
Proof.
  unfold entryAt. split.
  - destruct (get E t n) as [inner| | |] eqn:Hn; try done.
    destruct (get E inner s) as [e'| | |] eqn:Hs; try done.
    intros [= ->]. apply get_Own_inv in Hn as [? ?]. apply get_Own_inv in Hs as [? ?].
    eauto.
  - intros (Hn & Hs & inner & Ht & Hi).
    rewrite (get_Own E t n inner) by done. by rewrite (get_Own E inner s e).
Qed.

(** ** Registration *)

Lemma ensureName_Normal E t n : ∃ t', ensureName E t n = Normal t'.
Proof. unfold ensureName. destruct (get E t n); eauto. Qed.

Lemma ensureName_present E (t : Table) n :
  get E t n ≠ Absent → ensureName E t n = Normal t.
Proof. unfold ensureName. by destruct (get E t n). Qed.

Lemma ensureName_absent E (t : Table) n :
  get E t n = Absent →
  ensureName E t n = Normal (<[n := ∅]> t) ∧ get E (<[n := ∅]> t) n = Own ∅.
Proof.
  intros H. unfold ensureName. rewrite H. split; [done|].
  apply get_Absent_inv in H as [[? _] _]. by apply get_insert_eq.
Qed.

Lemma assignCell_Normal_inv E (t t' : Table) n s e :
  assignCell E t n s e = Normal t' →
  ∃ inner, get E t n = Own inner ∧ s ≠ "length" ∧ t' = <[n := <[s := e]> inner]> t.
Proof.
  unfold assignCell, setCell.
  destruct (get E t n) as [inner| | |]; try done; [|by case_decide].
  repeat case_decide; try done; [destruct (inherits E s); try done|];
    intros [= <-]; eauto.
Qed.

Lemma assignCell_keeps_name E (t t' : Table) n s e :
  assignCell E t n s e = Normal t' → get E t' n ≠ Absent.
Proof.
  intros (inner & Hg & _ & ->)%assignCell_Normal_inv.
  apply get_Own_inv in Hg as [? _]. by rewrite get_insert_eq.
Qed.

Lemma setTransition_unfold E n s t a (tbl : Table) :
  setTransition E n s t a tbl =
  andThen (ensureName E tbl n)
          (λ t1, assignCell E t1 n s {| endState := t; action := a |}).
Proof.
  unfold setTransition. simpl. destruct (ensureName E tbl n); simpl; try done.
  by rewrite !andThen_Normal.
Qed.

Lemma setTransition_present E n s t a (tbl : Table) :
  get E tbl n ≠ Absent →
  setTransition E n s t a tbl = assignCell E tbl n s {| endState := t; action := a |}.
Proof. intros H. rewrite setTransition_unfold. by rewrite ensureName_present. Qed.

Lemma setTransition_cases E n s t a (tbl : Table) :
  let e := {| endState := t; action := a |} in
  setTransition E n s t a tbl =
  match get E tbl n with
  | Absent =>
      match setCell E ∅ s e with
      | Normal i => Normal (<[n := i]> tbl)
      | Threw err _ => Threw err (<[n := ∅]> tbl)
      | Untracked => Untracked
      end
  | Own inner =>
      match setCell E inner s e with
      | Normal i => Normal (<[n := i]> tbl)
      | Threw err _ => Threw err tbl
      | Untracked => Untracked
      end
  | Inherited => Untracked
  | Length => if decide (s = "__proto__") then Untracked else Threw TypeError tbl
  end.
Proof.
  intros e. rewrite setTransition_unfold.
  destruct (get E tbl n) as [inner| | |] eqn:Hg.
  - rewrite ensureName_present by congruence. simpl. unfold assignCell. by rewrite Hg.
  - rewrite ensureName_present by congruence. simpl. unfold assignCell. by rewrite Hg.
  - rewrite ensureName_present by congruence. simpl. unfold assignCell. by rewrite Hg.
  - destruct (ensureName_absent E tbl n Hg) as [-> Hown]. simpl.
    unfold assignCell. rewrite Hown.
    subst e. destruct (setCell E ∅ s _); try done. by rewrite insert_insert_eq.
Qed.

Lemma setCell_twice E (inner i1 : Inner) s e1 e2 :
  setCell E inner s e1 = Normal i1 →
  setCell E i1 s e2 = Normal (<[s := e2]> inner) ∧ setCell E inner s e2 = Normal (<[s := e2]> inner).
Proof.
  unfold setCell. repeat case_decide; try done;
    try (destruct (inherits E s); try done); intros [= <-];
    by rewrite insert_insert_eq.
Qed.

Lemma setCell_Threw E (inner i1 : Inner) s e1 err :
  setCell E inner s e1 = Threw err i1 →
  ∀ (i2 : Inner) e2, ∃ i3, setCell E i2 s e2 = Threw err i3.
Proof.
  intros H i2 e2. unfold setCell in *.
  destruct (decide (s = "length")) as [->|Hs].
  - injection H as <- _. eauto.
  - case_decide; [destruct (inherits E s)|]; done.
Qed.

(** C4. Registering [(n, s)] a second time overwrites the cell: the builder
    is then in the state it would be in, and the call ends the way it would
    end, had only the second registration been made; the duplicate raises no
    error of its own, and the cell then holds the second end state and
    callback, so the first callback cannot be reached through it.  The table
    maps a pair to the value [entryAt] finds, which is one entry at most. *)
Theorem setTransition_last_write_wins E (tbl tbl1 : Table) n s t1 a1 t2 a2 :
  stateOf (setTransition E n s t1 a1 tbl) = Some tbl1 →
  setTransition E n s t2 a2 tbl1 = setTransition E n s t2 a2 tbl
  ∧ (setTransition E n s t1 a1 tbl = Normal tbl1 →
     ∃ tbl2, setTransition E n s t2 a2 tbl1 = Normal tbl2
             ∧ entryAt E tbl2 n s = Some {| endState := t2; action := a2 |}
             ∧ ∀ e, entryAt E tbl2 n s = Some e → action e = a2).
Proof.
  rewrite !setTransition_cases. simpl.
  destruct (get E tbl n) as [inner| | |] eqn:Hg; simpl.
  - apply get_Own_inv in Hg as [Hn Hin].
    destruct (setCell E inner s _) as [i1|err i1|] eqn:Hc; simpl; try done.
    + intros [= <-]. rewrite get_insert_eq by done.
      destruct (setCell_twice E inner i1 s _ {| endState := t2; action := a2 |} Hc)
        as [-> ->].
      simpl. rewrite insert_insert_eq. split; [done|]. intros _.
      eexists. split; [done|].
      assert (entryAt E (<[n:=<[s:={| endState := t2; action := a2 |}]> inner]> tbl) n s
              = Some {| endState := t2; action := a2 |}) as Hent.
      { apply entryAt_Some. split; [done|]. split.
        - unfold setCell in Hc. by case_decide.
        - eexists. split; [apply lookup_insert_eq|apply lookup_insert_eq]. }
      split; [done|]. intros e. rewrite Hent. by intros [= <-].
    + intros [= <-]. rewrite (get_Own E tbl n inner) by done. split; [done|]. done.
  - done.
  - case_decide; [done|]. intros [= <-]. by rewrite Hg.
  - destruct (setCell E ∅ s _) as [i1|err i1|] eqn:Hc; simpl; try done.
    + pose proof (get_Absent_inv E tbl n Hg) as [[Hn _] _].
      intros [= <-]. rewrite get_insert_eq by done.
      destruct (setCell_twice E ∅ i1 s _ {| endState := t2; action := a2 |} Hc)
        as [-> ->].
      simpl. rewrite insert_insert_eq. split; [done|]. intros _.
      eexists. split; [done|].
      assert (entryAt E (<[n:=<[s:={| endState := t2; action := a2 |}]> ∅]> tbl) n s
              = Some {| endState := t2; action := a2 |}) as Hent.
      { apply entryAt_Some. split; [done|]. split.
        - unfold setCell in Hc. by case_decide.
        - eexists. split; [apply lookup_insert_eq|apply lookup_insert_eq]. }
      split; [done|]. intros e. rewrite Hent. by intros [= <-].
    + pose proof (get_Absent_inv E tbl n Hg) as [[Hn _] _].
      intros [= <-]. rewrite get_insert_eq by done.
      destruct (setCell_Threw E _ _ _ _ _ Hc ∅ {| endState := t2; action := a2 |})
        as [i3 Hc2].
      rewrite Hc2. split; [done|]. done.
Qed.

Lemma setTransition_last_write_wins_witness :
  let tbl1 : Table := {[ "go" := {[ "A" := {| endState := "B"; action := 0 |} ]} ]} in
  setTransition es5 "go" "A" "C" 1 tbl1 = setTransition es5 "go" "A" "C" 1 ∅
  ∧ (setTransition es5 "go" "A" "B" 0 ∅ = Normal tbl1 →
     ∃ tbl2, setTransition es5 "go" "A" "C" 1 tbl1 = Normal tbl2
             ∧ entryAt es5 tbl2 "go" "A" = Some {| endState := "C"; action := 1 |}
             ∧ ∀ e, entryAt es5 tbl2 "go" "A" = Some e → action e = 1).
Proof.
  intros tbl1.
  apply (setTransition_last_write_wins es5 ∅ tbl1 "go" "A" "B" 0 "C" 1).
  vm_compute. reflexivity.
Defined.

(** ** The names of the table *)

Lemma ensureName_namesPlain E (t t' : Table) n :
  namesPlain E t → stateOf (ensureName E t n) = Some t' → namesPlain E t'.
Proof.
  intros Hp. destruct (get_Absent_dec E t n) as [Habs|Hpres].
  - destruct (ensureName_absent E t n Habs) as [-> _]. intros [= <-] k.
    destruct (decide (n = k)) as [<-|Hne].
    + intros _. by apply get_Absent_inv in Habs as [? _].
    + rewrite lookup_insert_ne by done. apply Hp.
  - rewrite ensureName_present by done. by intros [= <-].
Qed.

Lemma assignCell_namesPlain E (t t' : Table) n s e :
  namesPlain E t → stateOf (assignCell E t n s e) = Some t' → namesPlain E t'.
Proof.
  intros Hp. unfold assignCell.
  destruct (get E t n) as [inner| | |] eqn:Hg; simpl; try done.
  - destruct (setCell E inner s e) as [i| |]; simpl; try done; intros [= <-]; [|done].
    intros k. destruct (decide (n = k)) as [<-|Hne].
    + intros _. apply Hp. apply get_Own_inv in Hg as [_ ->]. eauto.
    + rewrite lookup_insert_ne by done. apply Hp.
  - case_decide; [done|]. by intros [= <-].
  - by intros [= <-].
Qed.

Lemma statesLoop_namesPlain E n states e (t t' : Table) :
  namesPlain E t → stateOf (statesLoop E n states e t) = Some t' → namesPlain E t'.
Proof.
  revert t t'. induction states as [|s states IH]; intros t t' Hp; simpl.
  - by intros [= <-].
  - apply (andThen_invariant (namesPlain E)).
    + intros t1. by apply assignCell_namesPlain.
    + intros t1 t2. apply IH.
Qed.

Lemma addPendingTransitions_namesPlain E names states t a (tbl tbl' : Table) :
  namesPlain E tbl →
  stateOf (addPendingTransitions E names states t a tbl) = Some tbl' →
  namesPlain E tbl'.
Proof.
  revert tbl tbl'. induction names as [|n names IH]; intros tbl tbl' Hp; simpl.
  - by intros [= <-].
  - apply (andThen_invariant (namesPlain E)).
    + intros t1. by apply ensureName_namesPlain.
    + intros t1 t2 Hp1. apply (andThen_invariant (namesPlain E)).
      * intros t3. by apply statesLoop_namesPlain.
      * intros t3 t4. apply IH.
Qed.

(** ** Bulk registration *)

Lemma eachPair_app E l1 l2 t a (tbl : Table) :
  eachPair E (l1 ++ l2) t a tbl = andThen (eachPair E l1 t a tbl) (eachPair E l2 t a).
Proof.
  revert tbl. induction l1 as [|[n s] l1 IH]; intros tbl; simpl; [done|].
  rewrite andThen_assoc. by apply andThen_ext.
Qed.

Lemma statesLoop_eachPair E n states t a (tbl : Table) :
  get E tbl n ≠ Absent →
  statesLoop E n states {| endState := t; action := a |} tbl =
  eachPair E (map (pair n) states) t a tbl.
Proof.
  revert tbl. induction states as [|s states IH]; intros tbl Hn; simpl; [done|].
  rewrite setTransition_present by done.
  destruct (assignCell E tbl n s _) as [tbl'| |] eqn:Ha; simpl; try done.
  apply IH. by eapply assignCell_keeps_name.
Qed.

Lemma nameLoop_eachPair E n states t a (tbl : Table) :
  states ≠ [] →
  andThen (ensureName E tbl n) (statesLoop E n states {| endState := t; action := a |}) =
  eachPair E (map (pair n) states) t a tbl.
Proof.
  intros Hne. destruct (get_Absent_dec E tbl n) as [Habs|Hpres].
  - destruct states as [|s states]; [done|]. simpl.
    rewrite setTransition_unfold.
    destruct (ensureName_absent E tbl n Habs) as [-> Hown]. simpl.
    destruct (assignCell E _ n s _) as [tbl'| |] eqn:Ha; simpl; try done.
    apply statesLoop_eachPair. by eapply assignCell_keeps_name.
  - rewrite ensureName_present by done. simpl. by apply statesLoop_eachPair.
Qed.

(** C5, as the code has it.  With at least one state, the bulk
    registration is the sequence of single registrations over the pairs of
    [names] and [initialStates]; and a single registration is the bulk one
    on two singleton lists. *)
Theorem setTransitions_cross_product E names states t a (tbl : Table) :
  states ≠ [] →
  setTransitions E names states t a tbl = eachPair E (list_prod names states) t a tbl
  ∧ ∀ n s, setTransition E n s t a tbl = setTransitions E [n] [s] t a tbl.
Proof.
  intros Hne. split; [|done]. unfold setTransitions.
  revert tbl. induction names as [|n names IH]; intros tbl; [done|].
  cbn [addPendingTransitions list_prod]. rewrite eachPair_app.
  change (map (λ y, (n, y)) states) with (map (pair n) states).
  rewrite <- (nameLoop_eachPair E n states t a tbl Hne).
  rewrite andThen_assoc. apply andThen_ext. intros t1.
  by apply andThen_ext.
Qed.

Lemma setTransitions_cross_product_witness :
  setTransitions es5 ["clear"; "change"] ["postSearchWithoutContext"; "postSearchWithContext"]
    "preSearchWithoutContent" 3 ∅ =
  eachPair es5
    [("clear", "postSearchWithoutContext"); ("clear", "postSearchWithContext");
     ("change", "postSearchWithoutContext"); ("change", "postSearchWithContext")]
    "preSearchWithoutContent" 3 ∅.
Proof.
  exact (proj1 (setTransitions_cross_product es5 ["clear"; "change"]
                  ["postSearchWithoutContext"; "postSearchWithContext"]
                  "preSearchWithoutContent" 3 ∅ ltac:(discriminate))).
Defined.

(** C5 as stated fails when [initialStates] is empty: the bulk call makes
    [go] a name of the table, and there is no pair to register one by one. *)
Lemma setTransitions_no_states_differs :
  stateOf (setTransitions es5 ["go"] [] "busy" 0 ∅) = Some {[ "go" := ∅ ]}
  ∧ stateOf (eachPair es5 (list_prod ["go"] []) "busy" 0 ∅) = Some ∅
  ∧ stateOf (setTransitions es5 ["go"] [] "busy" 0 ∅)
    ≠ stateOf (eachPair es5 (list_prod ["go"] []) "busy" 0 ∅).
Proof. vm_compute. split; [done|]. split; [done|]. discriminate. Qed.

(** C8, as the code has it.  With no name the call does nothing.  With
    names and no state the call completes, adds or changes no entry, and
    makes every plain name of [names] a name of the table. *)
Theorem setTransitions_empty_lists E names states t a (tbl : Table) :
  setTransitions E [] states t a tbl = Normal tbl
  ∧ ∃ tbl', setTransitions E names [] t a tbl = Normal tbl'
      ∧ (∀ n s, entryAt E tbl' n s = entryAt E tbl n s)
      ∧ (∀ k, k ∈ dom tbl' ↔ k ∈ dom tbl ∨ (k ∈ names ∧ plain E k)).
Proof.
  split; [done|]. unfold setTransitions.
  revert tbl. induction names as [|n names IH]; intros tbl.
  - exists tbl. split; [done|]. split; [done|]. set_solver.
  - cbn [addPendingTransitions statesLoop].
    destruct (get_Absent_dec E tbl n) as [Habs|Hpres].
    + destruct (ensureName_absent E tbl n Habs) as [-> Hown]. simpl.
      destruct (IH (<[n := ∅]> tbl)) as (tbl' & -> & Hent & Hdom).
      pose proof (get_Absent_inv E tbl n Habs) as [Hplain Hnone].
      exists tbl'. split; [done|]. split.
      * intros n' s. rewrite Hent. unfold entryAt.
        destruct (decide (n = n')) as [<-|Hnn'].
        -- rewrite Hown, Habs. unfold get. case_decide; [done|].
           rewrite lookup_empty. by destruct (inherits E s).
        -- by rewrite get_insert_ne.
      * intros k. rewrite Hdom, dom_insert. set_solver.
    + rewrite ensureName_present by done. simpl.
      destruct (IH tbl) as (tbl' & -> & Hent & Hdom).
      exists tbl'. split; [done|]. split; [done|].
      intros k. rewrite Hdom. split; [set_solver|].
      intros [?|[[->|?]%elem_of_cons Hp]]; [by left| |by right].
      left. apply elem_of_dom. rewrite (get_plain E tbl n Hp) in Hpres.
      destruct (tbl !! n); [eauto|done].
Qed.

(** C8 as stated fails when only [initialStates] is empty: after
    [setTransitions(["go"], [], ...)] a build gives a state machine with a
    property [go], which a build without that call does not have. *)
Lemma setTransitions_no_states_changes_build :
  match register es5 ["go"] [] "busy" 0 StateMachineFactory with
  | Normal w' =>
      transitions w' = {[ "go" := ∅ ]}
      ∧ machines (build "idle" w').1
        = [ {[ "currentState" := VString "idle"; "go" := VTransition 0 "go" ]} ]
      ∧ machines (build "idle" StateMachineFactory).1
        = [ {[ "currentState" := VString "idle" ]} ]
      ∧ build "idle" w' ≠ build "idle" StateMachineFactory
  | _ => False
  end.
Proof. vm_compute. split; [done|]. split; [done|]. split; [done|]. discriminate. Qed.

(** ** Entries after a registration *)

Lemma assignCell_entry E (tbl tbl' : Table) n' s' e :
  assignCell E tbl n' s' e = Normal tbl' →
  entryAt E tbl' n' s' = Some e
  ∧ ∀ n s, (n, s) ≠ (n', s') → entryAt E tbl' n s = entryAt E tbl n s.
Proof.
  intros (inner & Hg & Hs & ->)%assignCell_Normal_inv.
  pose proof (get_Own_inv E tbl n' inner Hg) as [Hn Hin].
  split.
  - apply entryAt_Some. repeat split; try done.
    eexists. split; apply lookup_insert_eq.
  - intros n s Hne. unfold entryAt.
    destruct (decide (n = n')) as [->|Hnn].
    + rewrite get_insert_eq, Hg by done.
      rewrite get_insert_ne; [done|]. congruence.
    + by rewrite get_insert_ne.
Qed.

Lemma assignCell_keeps E (tbl tbl' : Table) n' s' e n s :
  assignCell E tbl n' s' e = Normal tbl' →
  entryAt E tbl n s = Some e → entryAt E tbl' n s = Some e.
Proof.
  intros [Hset Hother]%assignCell_entry He.
  destruct (decide ((n, s) = (n', s'))) as [[= -> ->]|Hne]; [done|].
  by rewrite Hother.
Qed.

Lemma ensureName_entry E (tbl tbl' : Table) n0 n s :
  ensureName E tbl n0 = Normal tbl' → entryAt E tbl' n s = entryAt E tbl n s.
Proof.
  destruct (get_Absent_dec E tbl n0) as [Habs|Hpres].
  - destruct (ensureName_absent E tbl n0 Habs) as [-> Hown]. intros [= <-].
    unfold entryAt. destruct (decide (n0 = n)) as [<-|Hne].
    + rewrite Hown, Habs. unfold get. case_decide; [done|].
      rewrite lookup_empty. by destruct (inherits E s).
    + by rewrite get_insert_ne.
  - rewrite ensureName_present by done. by intros [= <-].
Qed.

Lemma statesLoop_entries E n states e (tbl tbl' : Table) :
  statesLoop E n states e tbl = Normal tbl' →
  (∀ s, s ∈ states → entryAt E tbl' n s = Some e)
  ∧ ∀ n0 s0, entryAt E tbl n0 s0 = Some e → entryAt E tbl' n0 s0 = Some e.
Proof.
  revert tbl. induction states as [|s states IH]; intros tbl; simpl.
  - intros [= <-]. split; [|done]. intros s Hs. by apply elem_of_nil in Hs.
  - destruct (assignCell E tbl n s e) as [t1| |] eqn:Ha; simpl; try done.
    intros [Hin Hkeep]%IH. split.
    + intros s0 [->|Hs0]%elem_of_cons; [|by apply Hin].
      apply Hkeep. by apply assignCell_entry in Ha as [? _].
    + intros n0 s0 He. apply Hkeep. by eapply assignCell_keeps.
Qed.

Lemma addPendingTransitions_entries E names states t a (tbl tbl' : Table) :
  let e := {| endState := t; action := a |} in
  addPendingTransitions E names states t a tbl = Normal tbl' →
  (∀ n s, n ∈ names → s ∈ states → entryAt E tbl' n s = Some e)
  ∧ ∀ n0 s0, entryAt E tbl n0 s0 = Some e → entryAt E tbl' n0 s0 = Some e.
Proof.
  intros e. revert tbl. induction names as [|n names IH]; intros tbl; simpl.
  - intros [= <-]. split; [|done]. intros n s Hn. by apply elem_of_nil in Hn.
  - destruct (ensureName E tbl n) as [t1| |] eqn:Hens; simpl; try done.
    destruct (statesLoop E n states _ t1) as [t2| |] eqn:Hloop; simpl; try done.
    apply statesLoop_entries in Hloop as [Hin Hkeep].
    intros [Hin' Hkeep']%IH. split.
    + intros n0 s0 [->|Hn0]%elem_of_cons Hs0; [|by apply Hin'].
      apply Hkeep'. by apply Hin.
    + intros n0 s0 He. apply Hkeep', Hkeep.
      by rewrite (ensureName_entry E tbl t1 n n0 s0 Hens).
Qed.

Lemma register_machines E names states t a (w w' : World) :
  stateOf (register E names states t a w) = Some w' → machines w' = machines w.
Proof.
  unfold register.
  destruct (addPendingTransitions E names states t a (transitions w));
    simpl; try done; by intros [= <-].
Qed.

(** ** [build] *)

Lemma foldl_insert_lookup (f : string → Val) (l : list string) (m : gmap string Val) k :
  foldl (λ sm name, <[name := f name]> sm) m l !! k =
  if decide (k ∈ l) then Some (f k) else m !! k.
Proof.
  revert m. induction l as [|x l IH]; intros m.
  - case_decide as H; [by apply elem_of_nil in H|done].
  - cbn [foldl]. rewrite IH.
    destruct (decide (k ∈ l)) as [Hin|Hnin]; destruct (decide (k ∈ x :: l)) as [Hin'|Hnin'];
      try done.
    + exfalso. apply Hnin'. by right.
    + apply elem_of_cons in Hin' as [->|?]; [|done]. apply lookup_insert_eq.
    + apply lookup_insert_ne. intros ->. apply Hnin'. by left.
Qed.

Lemma elem_of_enumerate (t : Table) k : k ∈ enumerate t ↔ is_Some (t !! k).
Proof.
  unfold enumerate. rewrite list_elem_of_fmap. split.
  - intros ([k' v] & -> & Hin). apply elem_of_map_to_list in Hin. eauto.
  - intros [v Hv]. exists (k, v). split; [done|]. by apply elem_of_map_to_list.
Qed.

(** The object [build] returns: a function under every name of the table,
    and the initial state under [currentState] unless that is such a name. *)
Lemma build_spec init (w : World) :
  ∃ sm, build init w =
        ({| transitions := transitions w; machines := machines w ++ [sm] |},
         length (machines w))
    ∧ ∀ k, sm !! k =
           if decide (is_Some (transitions w !! k))
           then Some (VTransition (length (machines w)) k)
           else if decide (k = "currentState") then Some (VString init) else None.
Proof.
  eexists. split; [reflexivity|]. intros k.
  rewrite (foldl_insert_lookup (VTransition (length (machines w)))).
  destruct (decide (k ∈ enumerate (transitions w))) as [Hin|Hnin].
  - rewrite decide_True; [done|]. by apply elem_of_enumerate.
  - rewrite decide_False; [|by rewrite <- elem_of_enumerate].
    case_decide as Hk.
    + subst k. apply lookup_singleton_eq.
    + by apply lookup_singleton_ne.
Qed.

Lemma build_lookup init (w : World) :
  ∃ sm, machines (build init w).1 !! (build init w).2 = Some sm
    ∧ (build init w).2 = length (machines w)
    ∧ transitions (build init w).1 = transitions w
    ∧ (∀ r, r < length (machines w) →
            machines (build init w).1 !! r = machines w !! r)
    ∧ ∀ k, sm !! k =
           if decide (is_Some (transitions w !! k))
           then Some (VTransition (length (machines w)) k)
           else if decide (k = "currentState") then Some (VString init) else None.
Proof.
  destruct (build_spec init w) as (sm & -> & Hsm). exists sm. simpl.
  split; [|split; [done|split; [done|split; [|done]]]].
  - rewrite lookup_app_r by done. by rewrite Nat.sub_diag.
  - intros r Hr. by rewrite lookup_app_l.
Qed.

(** When [currentState] is not a name of the table, [build] returns an
    object in the initial state with one function for each name of the
    table and nothing else. *)
Lemma build_plain_names init (w : World) :
  transitions w !! "currentState" = None →
  ∃ sm, machines (build init w).1 !! (build init w).2 = Some sm
    ∧ sm !! "currentState" = Some (VString init)
    ∧ ∀ k, k ≠ "currentState" →
           sm !! k = if decide (is_Some (transitions w !! k))
                     then Some (VTransition (build init w).2 k) else None.
Proof.
  intros Hcs. destruct (build_lookup init w) as (sm & Hsm & Hr & _ & _ & Hk).
  exists sm. split; [done|]. split.
  - rewrite Hk, Hcs. rewrite decide_False by (by intros [? ?]).
    by rewrite decide_True.
  - intros k Hne. rewrite Hk, Hr. case_decide; [done|]. by rewrite decide_False.
Qed.

(** C10. When [currentState] is a name of the table, the object that
    [build] returns holds the generated transition function under
    [currentState], not the initial state. *)
Theorem build_currentState_clobbered init (w : World) :
  is_Some (transitions w !! "currentState") →
  currentState (build init w).1 (build init w).2
  = VTransition (build init w).2 "currentState"
  ∧ currentState (build init w).1 (build init w).2 ≠ VString init.
Proof.
  intros Hreg. destruct (build_lookup init w) as (sm & Hsm & Hr & _ & _ & Hk).
  assert (currentState (build init w).1 (build init w).2
          = VTransition (build init w).2 "currentState") as Heq.
  { unfold currentState. rewrite Hsm, Hk. rewrite decide_True by done.
    by rewrite Hr. }
  by rewrite Heq.
Qed.

Lemma build_currentState_clobbered_witness :
  let w := {| transitions :=
                {[ "currentState" := {[ "idle" := {| endState := "busy"; action := 0 |} ]} ]};
              machines := [] |} in
  currentState (build "idle" w).1 (build "idle" w).2
  = VTransition (build "idle" w).2 "currentState"
  ∧ currentState (build "idle" w).1 (build "idle" w).2 ≠ VString "idle".
Proof.
  intros w. apply (build_currentState_clobbered "idle" w).
  eexists. apply lookup_singleton_eq.
Defined.

(** C7 at a failing input: after [setTransition("currentState", ...)],
    [build("idle")] returns an object whose [currentState] is not
    ["idle"]. *)
Lemma build_after_currentState_name :
  match setTransition es5 "currentState" "idle" "busy" 0 ∅ with
  | Normal t =>
      let w := (build "idle" {| transitions := t; machines := [] |}).1 in
      currentState w 0 = VTransition 0 "currentState"
      ∧ currentState w 0 ≠ VString "idle"
  | _ => False
  end.
Proof. vm_compute. by split. Qed.

(** ** Dispatch *)

Section Dispatch.
Context (E : Engine) (script : Action → list Arg → list Cmd).

Lemma applications_app tr1 tr2 :
  applications (tr1 ++ tr2) = applications tr1 ++ applications tr2.
Proof.
  induction tr1 as [|[a args|r v] tr1 IH]; simpl; [done| |done].
  by rewrite IH.
Qed.

Lemma currentState_set (w : World) r v :
  is_Some (machines w !! r) → currentState (setCurrentState w r v) r = v.
Proof.
  intros [sm Hsm]. unfold currentState, setCurrentState. simpl.
  rewrite list_lookup_alter_eq, Hsm. simpl. by rewrite lookup_insert_eq.
Qed.


Lemma newTransition_matched (w : World) r n e args tr fuel :
  entryAt E (transitions w) n (toKey E (currentState w r)) = Some e →
  newTransition E script (S fuel) w r n args tr =
  runCmds E (newTransition E script fuel) (script (action e) args)
    (setCurrentState w r (VString (endState e)))
    (tr ++ [Applied (action e) args]).
Proof.
  unfold entryAt. simpl.
  destruct (get E (transitions w) n) as [inner| | |]; try done.
  destruct (get E inner _) as [e'| | |]; try done.
  by intros [= ->].
Qed.

(** The guard of [newTransition] fails when the name or the state is
    found nowhere: nothing is written and no callback is applied. *)
Lemma newTransition_absent (w : World) r n args tr fuel :
  get E (transitions w) n = Absent
  ∨ (∃ inner, get E (transitions w) n = Own inner
              ∧ get E inner (toKey E (currentState w r)) = Absent) →
  newTransition E script (S fuel) w r n args tr = Some (Normal (w, tr)).
Proof.
  simpl. intros [->|(inner & -> & ->)]; done.
Qed.

(** The guard passes when the state names a built-in that arrays inherit:
    the state is overwritten with [undefined] and the call throws. *)
Lemma newTransition_inherited (w : World) r n inner args tr fuel :
  get E (transitions w) n = Own inner →
  get E inner (toKey E (currentState w r)) = Inherited →
  newTransition E script (S fuel) w r n args tr =
  Some (Threw TypeError (setCurrentState w r VUndefined, tr)).
Proof. simpl. by intros -> ->. Qed.

Lemma callTransition_closure (w : World) r sm n o n' args fuel :
  machines w !! r = Some sm →
  sm !! n = Some (VTransition o n') →
  callTransition E script fuel w r n args = newTransition E script fuel w o n' args [].
Proof.
  intros Hsm Hn. unfold callTransition, exec. simpl. rewrite Hsm, Hn.
  by destruct (newTransition E script fuel w o n' args []) as [[[??]|??|]|].
Qed.

Lemma runCmds_reads call cmds (w : World) tr :
  (∀ c, c ∈ cmds → ∃ r', c = Read r') →
  ∃ tr', runCmds E call cmds w tr = Some (Normal (w, tr'))
         ∧ applications tr' = applications tr.
Proof.
  revert tr. induction cmds as [|c cmds IH]; intros tr Hall; simpl.
  - eauto.
  - destruct (Hall c) as [r' ->]; [by left|].
    destruct (IH (tr ++ [Observed r' (currentState w r')])) as (tr' & -> & Happ).
    { intros c Hc. apply Hall. by right. }
    exists tr'. split; [done|]. rewrite Happ, applications_app. simpl.
    by rewrite app_nil_r.
Qed.

(** C1. When the table has the entry [e] for [(n, s)] and the state
    machine [r] is in state [s], calling [r[n](...args)] writes the end
    state of [e] and then applies the callback of [e] to [args]: the call
    is the run of the callback in the world where the state is already
    written.  When the callback does not itself call into a state
    machine, the call returns, the state is the end state, and the
    callback applications are that single one. *)
Theorem transition_fires (w : World) r sm n s e args :
  machines w !! r = Some sm →
  sm !! n = Some (VTransition r n) →
  sm !! "currentState" = Some (VString s) →
  entryAt E (transitions w) n s = Some e →
  (∀ fuel, callTransition E script (S fuel) w r n args =
           runCmds E (newTransition E script fuel) (script (action e) args)
             (setCurrentState w r (VString (endState e)))
             [Applied (action e) args])
  ∧ ((∀ c, c ∈ script (action e) args → ∃ r', c = Read r') →
     ∀ fuel, ∃ w' tr',
       callTransition E script (S fuel) w r n args = Some (Normal (w', tr'))
       ∧ currentState w' r = VString (endState e)
       ∧ applications tr' = [(action e, args)]).
Proof.
  intros Hsm Hn Hs He.
  assert (currentState w r = VString s) as Hcur.
  { unfold currentState. by rewrite Hsm, Hs. }
  assert (∀ fuel, callTransition E script (S fuel) w r n args =
           runCmds E (newTransition E script fuel) (script (action e) args)
             (setCurrentState w r (VString (endState e)))
             [Applied (action e) args]) as Heq.
  { intros fuel. rewrite (callTransition_closure w r sm n r n) by done.
    apply newTransition_matched. by rewrite Hcur. }
  split; [done|]. intros Hquiet fuel. rewrite Heq.
  destruct (runCmds_reads (newTransition E script fuel) (script (action e) args)
              (setCurrentState w r (VString (endState e)))
              [Applied (action e) args] Hquiet) as (tr' & -> & Happ).
  eexists _, tr'. split; [done|]. split; [|done].
  apply currentState_set. eauto.
Qed.


End Dispatch.

Lemma transition_fires_witness :
  ∃ w' tr',
    callTransition es5 quiet 1 searchWorld 0 "search" [AString "foo"]
    = Some (Normal (w', tr'))
    ∧ currentState w' 0 = VString "postSearchWithContext"
    ∧ applications tr' = [(0, [AString "foo"])].
Proof.
  refine (proj2 (transition_fires es5 quiet searchWorld 0 searchMachine "search" "empty"
                   {| endState := "postSearchWithContext"; action := 0 |}
                   [AString "foo"] _ _ _ _) _ 0).
  - vm_compute. reflexivity.
  - vm_compute. reflexivity.
  - vm_compute. reflexivity.
  - vm_compute. reflexivity.
  - intros c Hc. by apply elem_of_nil in Hc.
Defined.


(** The whole run of that reentrant call: the search callback sees the
    state after the search, and the clear it calls is dispatched from that
    state. *)
Example reentrant_search_run :
  observable (callTransition es5 searchScript 3 searchWorld 0 "search" [AString "foo"])
  = Some (Normal
      ([ <["currentState" := VString "preSearchWithoutContent"]> searchMachine ],
       [ Applied 0 [AString "foo"];
         Observed 0 (VString "postSearchWithContext");
         Applied 1 [];
         Observed 0 (VString "preSearchWithoutContent") ])).
Proof. vm_compute. reflexivity. Qed.

(** Scenario A of the specification: one transition, called twice. *)
Example scenario_go_twice :
  match register es5 ["go"] ["A"] "B" 0 StateMachineFactory with
  | Normal w0 =>
      observable (exec es5 quiet 1 [Fire 0 "go" []; Fire 0 "go" []] (build "A" w0).1)
      = Some (Normal ([ {[ "currentState" := VString "B"; "go" := VTransition 0 "go" ]} ],
                      [Applied 0 []]))
  | _ => False
  end.
Proof. vm_compute. reflexivity. Qed.

(** C3 at a failing input.  With [setTransition("go", "idle", "busy", f)]
    and [build("constructor")], the table has no entry for
    [("go", "constructor")], and yet [go()] overwrites the state with
    [undefined] and throws a TypeError: the guard of [newTransition] finds
    [Array.prototype.constructor]. *)
Lemma dispatch_on_inherited_state_throws :
  match register es5 ["go"] ["idle"] "busy" 0 StateMachineFactory with
  | Normal w0 =>
      let w := (build "constructor" w0).1 in
      entryAt es5 (transitions w) "go" "constructor" = None
      ∧ currentState w 0 = VString "constructor"
      ∧ match callTransition es5 quiet 1 w 0 "go" [] with
        | Some (Threw TypeError (w', tr)) =>
            currentState w' 0 = VUndefined ∧ tr = []
        | _ => False
        end
  | _ => False
  end.
Proof. vm_compute. done. Qed.

(** ** Registration after a build *)

(** C6 as stated fails: a state machine built before
    [setTransition("go", "busy", "idle", g)] follows that later entry.  Two
    calls of [go] end in [idle] with both callbacks applied; on the table
    as it was at the build the second call would do nothing. *)
Lemma registration_after_build_changes_dispatch :
  match register es5 ["go"] ["idle"] "busy" 0 StateMachineFactory with
  | Normal w0 =>
      let w1 := (build "idle" w0).1 in
      match register es5 ["go"] ["busy"] "idle" 1 w1 with
      | Normal w2 =>
          observable (exec es5 quiet 1 [Fire 0 "go" []; Fire 0 "go" []] w1)
          = Some (Normal ([ {[ "currentState" := VString "busy";
                               "go" := VTransition 0 "go" ]} ],
                          [Applied 0 []]))
          ∧ observable (exec es5 quiet 1 [Fire 0 "go" []; Fire 0 "go" []] w2)
          = Some (Normal ([ {[ "currentState" := VString "idle";
                               "go" := VTransition 0 "go" ]} ],
                          [Applied 0 []; Applied 1 []]))
          ∧ observable (exec es5 quiet 1 [Fire 0 "go" []; Fire 0 "go" []] w2)
            ≠ observable (exec es5 quiet 1 [Fire 0 "go" []; Fire 0 "go" []] w1)
      | _ => False
      end
  | _ => False
  end.
Proof. vm_compute. split; [done|]. split; [done|]. discriminate. Qed.

(** C6, as the code has it.  A registration writes the table that the
    transition functions of every state machine read, and no state machine:
    the properties of the state machines built before are as they were, and
    such a state machine, called under a name it has while in a state of
    the registration, is dispatched on the entry just registered. *)
Theorem registration_after_build E script names states t a (w w' : World) :
  register E names states t a w = Normal w' →
  machines w' = machines w
  ∧ ∀ r sm n s args,
      machines w !! r = Some sm →
      sm !! n = Some (VTransition r n) →
      sm !! "currentState" = Some (VString s) →
      n ∈ names → s ∈ states →
      (∀ c, c ∈ script a args → ∃ r', c = Read r') →
      ∀ fuel, ∃ w'' tr,
        callTransition E script (S fuel) w' r n args = Some (Normal (w'', tr))
        ∧ currentState w'' r = VString t
        ∧ applications tr = [(a, args)].
Proof.
  intros Hreg.
  assert (machines w' = machines w) as Hm.
  { apply (register_machines E names states t a). by rewrite Hreg. }
  split; [done|]. intros r sm n s args Hsm Hn Hs Hin Hst Hquiet fuel.
  assert (entryAt E (transitions w') n s = Some {| endState := t; action := a |}) as He.
  { unfold register in Hreg.
    destruct (addPendingTransitions E names states t a (transitions w)) as [tbl| |] eqn:Ha;
      try done.
    injection Hreg as <-. simpl.
    destruct (addPendingTransitions_entries E names states t a (transitions w) tbl Ha)
      as [Hall _].
    by apply Hall. }
  rewrite (callTransition_closure E script w' r sm n r n) by (by rewrite ?Hm).
  rewrite (newTransition_matched E script w' r n {| endState := t; action := a |}).
  2:{ unfold currentState. by rewrite Hm, Hsm, Hs. }
  simpl.
  destruct (runCmds_reads E (newTransition E script fuel) (script a args)
              (setCurrentState w' r (VString t)) [Applied a args] Hquiet)
    as (tr' & -> & Happ).
  eexists _, tr'. split; [done|]. split; [|done].
  apply currentState_set. rewrite Hm. eauto.
Qed.

Lemma registration_after_build_witness :
  ∃ w'' tr,
    callTransition es5 quiet 1 searchWorldLater 0 "search" [AString "foo"]
    = Some (Normal (w'', tr))
    ∧ currentState w'' 0 = VString "preSearchWithContent"
    ∧ applications tr = [(2, [AString "foo"])].
Proof.
  refine (proj2 (registration_after_build es5 quiet ["search"] ["empty"]
            "preSearchWithContent" 2 searchWorld searchWorldLater _)
          0 searchMachine "search" "empty" [AString "foo"] _ _ _ _ _ _ 0).
  - vm_compute. reflexivity.
  - vm_compute. reflexivity.
  - vm_compute. reflexivity.
  - vm_compute. reflexivity.
  - by left.
  - by left.
  - intros c Hc. by apply elem_of_nil in Hc.
Defined.

(** ** Independence of the state machines of one factory *)


Lemma ownClosures_factory : ownClosures StateMachineFactory.
Proof. intros r sm k o n Hsm. by destruct r. Qed.

Lemma ownClosures_register E names states t a (w w' : World) :
  stateOf (register E names states t a w) = Some w' → ownClosures w → ownClosures w'.
Proof.
  intros Hreg Hown r sm k o n Hsm.
  rewrite (register_machines E names states t a w w' Hreg) in Hsm. by eapply Hown.
Qed.


Section Independence.
Context (E : Engine) (script : Action → list Arg → list Cmd).

(** The state machine left alone, which no callback calls. *)
Context (r2 : nat).
Context (Hscript : ∀ a args r k xs, Fire r k xs ∈ script a args → r ≠ r2).




End Independence.




(** In that run the first state machine did move. *)
Example first_machine_moved :
  currentState twoMachines 0 = VString "empty"
  ∧ currentState twoMachinesAfterSearch.1 0 = VString "preSearchWithoutContent"
  ∧ currentState twoMachinesAfterSearch.1 1 = VString "postSearchWithContext".
Proof. vm_compute. done. Qed.

(** * Further properties *)

(** Closed equalities of tables and worlds, decided by computation. *)
Ltac by_compute := refine (bool_decide_unpack _ _); vm_compute; exact I.

(** ** What a registration writes *)

Lemma setCell_settable E (inner : Inner) s e :
  settable E s → setCell E inner s e = Normal (<[s := e]> inner).
Proof.
  intros [Hl Hp]. unfold setCell. rewrite decide_False by done.
  case_decide as Hs; [|done]. by rewrite (Hp Hs).
Qed.

Lemma setCell_Normal_inv E (inner i : Inner) s e :
  setCell E inner s e = Normal i → settable E s ∧ i = <[s := e]> inner.
Proof.
  unfold setCell, settable. case_decide as Hl; [done|].
  case_decide as Hs.
  - destruct (inherits E s) eqn:Hi; [done|]. intros [= <-]. done.
  - intros [= <-]. done.
Qed.

Lemma setAll_lookup states e (inner : Inner) s :
  setAll states e inner !! s = if decide (s ∈ states) then Some e else inner !! s.
Proof.
  unfold setAll. revert inner. induction states as [|x states IH]; intros inner.
  - case_decide as H; [by apply elem_of_nil in H|done].
  - cbn [foldl]. rewrite IH.
    destruct (decide (s ∈ states)) as [Hin|Hnin];
      destruct (decide (s ∈ x :: states)) as [Hin'|Hnin']; try done.
    + exfalso. apply Hnin'. by right.
    + apply elem_of_cons in Hin' as [->|?]; [|done]. apply lookup_insert_eq.
    + apply lookup_insert_ne. intros ->. apply Hnin'. by left.
Qed.

Lemma setAll_idempotent states e (inner : Inner) :
  setAll states e (setAll states e inner) = setAll states e inner.
Proof. apply map_eq. intros s. rewrite !setAll_lookup. by case_decide. Qed.

Lemma setAll_cons s states e (inner : Inner) :
  setAll (s :: states) e inner = setAll states e (<[s := e]> inner).
Proof. done. Qed.

Lemma registrable_get E (t : Table) n :
  registrable E t n ↔ (get E t n = Absent ∨ ∃ inner, get E t n = Own inner).
Proof.
  unfold registrable, get. split.
  - intros [Hl Hi]. rewrite decide_False by done.
    destruct (t !! n) as [inner|]; [eauto|]. rewrite Hi by done. by left.
  - case_decide as Hl; [intros [?|[? ?]]; done|].
    destruct (t !! n) as [inner|]; [done|].
    destruct (inherits E n); [intros [?|[? ?]]; done|done].
Qed.

Lemma registrable_insert E (t : Table) n x k :
  registrable E t n → (registrable E (<[n := x]> t) k ↔ registrable E t k).
Proof.
  intros [Hl Hi]. unfold registrable. destruct (decide (n = k)) as [<-|Hne].
  - rewrite lookup_insert_eq. naive_solver.
  - by rewrite lookup_insert_ne.
Qed.

Lemma statesLoop_Own E n states e (t : Table) inner :
  get E t n = Own inner → Forall (settable E) states →
  statesLoop E n states e t = Normal (<[n := setAll states e inner]> t).
Proof.
  revert t inner. induction states as [|s states IH]; intros t inner Hg Hall.
  - simpl. apply get_Own_inv in Hg as [_ Hin]. by rewrite insert_id.
  - apply Forall_cons in Hall as [Hs Hall]. simpl.
    pose proof (get_Own_inv E t n inner Hg) as [Hn _].
    unfold assignCell. rewrite Hg, (setCell_settable E inner s e Hs). simpl.
    rewrite (IH _ (<[s := e]> inner)); [|by apply get_insert_eq|done].
    by rewrite insert_insert_eq.
Qed.

Lemma statesLoop_Normal_inv E n states e (t t' : Table) :
  statesLoop E n states e t = Normal t' →
  states ≠ [] →
  ∃ inner, get E t n = Own inner ∧ Forall (settable E) states
           ∧ t' = <[n := setAll states e inner]> t.
Proof.
  revert t. induction states as [|s states IH]; intros t; [done|]. simpl.
  unfold assignCell at 1.
  destruct (get E t n) as [inner| | |] eqn:Hg; simpl; try done; [|by case_decide].
  destruct (setCell E inner s e) as [i| |] eqn:Hc; simpl; try done.
  apply setCell_Normal_inv in Hc as [Hs ->].
  pose proof (get_Own_inv E t n inner Hg) as [Hn _].
  intros Hloop _. exists inner. split; [done|].
  destruct states as [|s' states].
  - simpl in Hloop. injection Hloop as <-. split; [by apply Forall_singleton|done].
  - destruct (IH _ Hloop) as (inner' & Hg' & Hall & ->); [done|].
    rewrite get_insert_eq in Hg' by done. injection Hg' as <-.
    split; [by apply Forall_cons|]. by rewrite insert_insert_eq.
Qed.

(** One turn of the outer loop. *)
Lemma nameStep_Normal_inv E n states e (t t' : Table) :
  andThen (ensureName E t n) (statesLoop E n states e) = Normal t' →
  (∀ k, t' !! k = if decide (k = n ∧ registrable E t n)
                  then Some (setAll states e (default ∅ (t !! n)))
                  else t !! k)
  ∧ (states ≠ [] → registrable E t n ∧ Forall (settable E) states).
Proof.
  destruct (get_Absent_dec E t n) as [Habs|Hpres].
  - destruct (ensureName_absent E t n Habs) as [-> Hown]. simpl.
    pose proof (get_Absent_inv E t n Habs) as [[Hl Hi] Hnone].
    assert (registrable E t n) as Hreg by done.
    intros Hloop. destruct states as [|s states].
    + simpl in Hloop. injection Hloop as <-. split; [|done].
      intros k. rewrite Hnone. simpl. case_decide as Hk.
      * destruct Hk as [-> _]. apply lookup_insert_eq.
      * apply lookup_insert_ne. naive_solver.
    + destruct (statesLoop_Normal_inv E n _ e _ t' Hloop) as (inner & Hg & Hall & ->);
        [done|].
      rewrite Hown in Hg. injection Hg as <-. split; [|done].
      intros k. rewrite Hnone, insert_insert_eq. simpl. case_decide as Hk.
      * destruct Hk as [-> _]. apply lookup_insert_eq.
      * rewrite lookup_insert_ne by naive_solver. done.
  - rewrite ensureName_present by done. simpl.
    intros Hloop. destruct states as [|s states].
    + simpl in Hloop. injection Hloop as <-. split; [|done].
      intros k. case_decide as Hk; [|done]. destruct Hk as [-> Hreg].
      apply registrable_get in Hreg as [?|[inner Hg]]; [done|].
      apply get_Own_inv in Hg as [_ ->]. done.
    + destruct (statesLoop_Normal_inv E n _ e _ t' Hloop) as (inner & Hg & Hall & ->);
        [done|].
      assert (registrable E t n) as Hreg by (apply registrable_get; eauto).
      split; [|done]. pose proof (get_Own_inv E t n inner Hg) as [_ Hin].
      intros k. rewrite Hin. simpl. case_decide as Hk.
      * destruct Hk as [-> _]. apply lookup_insert_eq.
      * rewrite lookup_insert_ne by naive_solver. done.
Qed.

Lemma nameStep_registrable E n states e (t t' : Table) k :
  andThen (ensureName E t n) (statesLoop E n states e) = Normal t' →
  registrable E t' k ↔ registrable E t k.
Proof.
  intros [Hlook _]%nameStep_Normal_inv. unfold registrable. rewrite Hlook.
  case_decide as Hk; [|done]. destruct Hk as [-> [Hl Hi]]. naive_solver.
Qed.

(** The table after a registration that completed, name by name. *)
Lemma addPendingTransitions_lookup E names states t a (tbl tbl' : Table) :
  let e := {| endState := t; action := a |} in
  addPendingTransitions E names states t a tbl = Normal tbl' →
  (∀ k, tbl' !! k = if decide (k ∈ names ∧ registrable E tbl k)
                    then Some (setAll states e (default ∅ (tbl !! k)))
                    else tbl !! k)
  ∧ (names ≠ [] → states ≠ [] →
     Forall (registrable E tbl) names ∧ Forall (settable E) states).
Proof.
  intros e. revert tbl. induction names as [|n names IH]; intros tbl.
  - cbn [addPendingTransitions]. intros [= <-]. split; [|done]. intros k.
    case_decide as H; [|done]. destruct H as [H _]. by apply elem_of_nil in H.
  - cbn [addPendingTransitions]. rewrite <- andThen_assoc.
    destruct (andThen (ensureName E tbl n) (statesLoop E n states _)) as [t2| |] eqn:Hstep;
      simpl; try done.
    intros Hrest. destruct (IH t2 Hrest) as [Hlook Hok].
    destruct (nameStep_Normal_inv E n states e tbl t2 Hstep) as [Hlook2 Hok2].
    split.
    + intros k. rewrite Hlook.
      rewrite (decide_ext _ (k ∈ names ∧ registrable E tbl k))
        by (by rewrite (nameStep_registrable E n states e tbl t2 k Hstep)).
      rewrite !Hlook2.
      destruct (decide (k ∈ names ∧ registrable E tbl k)) as [[Hin Hreg]|Hnot].
      * rewrite (decide_True (P := k ∈ n :: names ∧ _)) by (split; [by right|done]).
        case_decide as Hk; [|done]. destruct Hk as [-> _]. simpl.
        by rewrite setAll_idempotent.
      * case_decide as Hk.
        -- destruct Hk as [-> Hreg].
           by rewrite (decide_True (P := n ∈ n :: names ∧ _)) by (split; [by left|done]).
        -- rewrite decide_False; [done|].
           intros [[->|Hin]%elem_of_cons Hreg]; naive_solver.
    + intros _ Hst. destruct (Hok2 Hst) as [Hn Hall]. split; [|done].
      apply Forall_cons. split; [done|].
      destruct names as [|n' names]; [done|].
      destruct Hok as [Hnames _]; [done|done|].
      eapply Forall_impl; [exact Hnames|]. intros k.
      by rewrite (nameStep_registrable E n states e tbl t2 k Hstep).
Qed.

Lemma entryAt_lookup E (t : Table) n s :
  entryAt E t n s =
  if decide (n = "length" ∨ s = "length") then None else t !! n ≫= (.!! s).
Proof.
  unfold entryAt, get. destruct (decide (n = "length")) as [Hn|Hn].
  - by rewrite decide_True by (by left).
  - destruct (t !! n) as [inner|] eqn:Ht; simpl.
    + destruct (decide (s = "length")) as [Hs|Hs].
      * by rewrite decide_True by (by right).
      * rewrite decide_False by naive_solver.
        destruct (inner !! s); [done|]. by destruct (inherits E s).
    + destruct (inherits E n); by case_decide.
Qed.

Lemma addPendingTransitions_registrable E names states t a (tbl tbl' : Table) k :
  addPendingTransitions E names states t a tbl = Normal tbl' →
  registrable E tbl' k ↔ registrable E tbl k.
Proof.
  intros [Hlook _]%addPendingTransitions_lookup. unfold registrable. rewrite Hlook.
  case_decide as Hk; [|done]. destruct Hk as [_ [Hl Hi]]. naive_solver.
Qed.

Lemma addPendingTransitions_completes E names states t a (tbl : Table) :
  names = [] ∨ states = []
  ∨ (Forall (registrable E tbl) names ∧ Forall (settable E) states) →
  ∃ tbl', addPendingTransitions E names states t a tbl = Normal tbl'.
Proof.
  intros [->|[->|[Hnames Hstates]]].
  - by eexists.
  - revert tbl. induction names as [|n names IH]; intros tbl; [by eexists|].
    cbn [addPendingTransitions statesLoop].
    destruct (ensureName_Normal E tbl n) as [t1 ->]. simpl. apply IH.
  - revert tbl Hnames. induction names as [|n names IH]; intros tbl Hnames;
      [by eexists|].
    apply Forall_cons in Hnames as [Hn Hnames].
    cbn [addPendingTransitions].
    assert (∃ inner t1, ensureName E tbl n = Normal t1 ∧ get E t1 n = Own inner
                        ∧ ∀ x, <[n := x]> t1 = <[n := x]> tbl) as (inner & t1 & -> & Hg & Hins).
    { pose proof Hn as [Habs|[inner Hg]]%registrable_get.
      - destruct (ensureName_absent E tbl n Habs) as [-> Hown].
        eexists _, _. split; [done|]. split; [done|]. intros x.
        by rewrite insert_insert_eq.
      - rewrite ensureName_present by congruence. eauto. }
    simpl. rewrite (statesLoop_Own E n states _ t1 inner Hg Hstates). simpl.
    rewrite Hins. apply IH.
    eapply Forall_impl; [exact Hnames|]. intros k. by rewrite registrable_insert.
Qed.

Lemma statesLoop_app E n l1 l2 e (t : Table) :
  statesLoop E n (l1 ++ l2) e t = andThen (statesLoop E n l1 e t) (statesLoop E n l2 e).
Proof.
  revert t. induction l1 as [|s l1 IH]; intros t; simpl; [done|].
  rewrite andThen_assoc. by apply andThen_ext.
Qed.

Lemma statesLoop_keeps_Own E n states e (t t' : Table) inner :
  get E t n = Own inner → statesLoop E n states e t = Normal t' →
  ∃ inner', get E t' n = Own inner'.
Proof.
  intros Hg Hloop. destruct states as [|s states].
  - simpl in Hloop. injection Hloop as <-. eauto.
  - destruct (statesLoop_Normal_inv E n _ e t t' Hloop) as (i & _ & _ & ->); [done|].
    apply get_Own_inv in Hg as [Hn _]. eexists. by apply get_insert_eq.
Qed.

(** X1. After a registration that completed, the table has the entry of
    the call for every pair of its names and states, and for every other
    pair the entry it had before, if any. *)
Theorem setTransitions_entries E names states t a (tbl tbl' : Table) :
  setTransitions E names states t a tbl = Normal tbl' →
  ∀ n s, entryAt E tbl' n s =
         if decide (n ∈ names ∧ s ∈ states)
         then Some {| endState := t; action := a |}
         else entryAt E tbl n s.
Proof.
  unfold setTransitions. intros Hreg n s.
  destruct (decide (n ∈ names ∧ s ∈ states)) as [[Hn Hs]|Hout].
  - destruct (addPendingTransitions_entries E names states t a tbl tbl' Hreg) as [Hall _].
    by apply Hall.
  - destruct (addPendingTransitions_lookup E names states t a tbl tbl' Hreg) as [Hlook _].
    rewrite !entryAt_lookup. case_decide; [done|]. rewrite Hlook.
    case_decide as Hk; [|done]. destruct Hk as [Hn Hreg'].
    simpl. rewrite setAll_lookup. rewrite decide_False by naive_solver.
    destruct (tbl !! n); [done|]. simpl. by rewrite lookup_empty.
Qed.

Lemma setTransitions_entries_witness :
  let tbl' : Table :=
    <["clear" := {[ "postSearchWithoutContext" :=
                      {| endState := "preSearchWithoutContent"; action := 6 |};
                    "postSearchWithContext" :=
                      {| endState := "preSearchWithoutContent"; action := 6 |} ]}]> ∅ in
  entryAt es5 tbl' "clear" "postSearchWithContext" =
  (if decide ("clear" ∈ ["clear"]
              ∧ "postSearchWithContext" ∈ ["postSearchWithoutContext"; "postSearchWithContext"])
   then Some {| endState := "preSearchWithoutContent"; action := 6 |}
   else entryAt es5 ∅ "clear" "postSearchWithContext").
Proof.
  intros tbl'.
  apply (setTransitions_entries es5 ["clear"]
           ["postSearchWithoutContext"; "postSearchWithContext"]
           "preSearchWithoutContent" 6 ∅ tbl').
  by_compute.
Defined.


(** X3. A registration that completed changes nothing when it is made
    again. *)
Theorem setTransitions_idempotent E names states t a (tbl tbl' : Table) :
  setTransitions E names states t a tbl = Normal tbl' →
  setTransitions E names states t a tbl' = Normal tbl'.
Proof.
  unfold setTransitions. intros Hreg.
  destruct (addPendingTransitions_lookup E names states t a tbl tbl' Hreg) as [Hlook Hok].
  destruct (addPendingTransitions_completes E names states t a tbl') as [tbl'' Hreg'].
  { destruct names as [|n names]; [by left|].
    destruct states as [|s states]; [by right; left|].
    right. right. destruct Hok as [Hn Hs]; [done|done|]. split; [|done].
    eapply Forall_impl; [exact Hn|]. intros k.
    by rewrite (addPendingTransitions_registrable E _ _ t a tbl tbl' k Hreg). }
  rewrite Hreg'. f_equal. apply map_eq. intros k.
  destruct (addPendingTransitions_lookup E names states t a tbl' tbl'' Hreg') as [Hlook' _].
  rewrite Hlook'.
  rewrite (decide_ext _ (k ∈ names ∧ registrable E tbl k))
    by (by rewrite (addPendingTransitions_registrable E _ _ t a tbl tbl' k Hreg)).
  case_decide as Hk; [|done].
  rewrite Hlook, decide_True by done. simpl. by rewrite setAll_idempotent.
Qed.

Lemma setTransitions_idempotent_witness :
  let tbl' : Table :=
    {[ "go" := {[ "A" := {| endState := "B"; action := 0 |} ]};
       "stop" := {[ "A" := {| endState := "B"; action := 0 |} ]} ]} in
  setTransitions es5 ["go"; "stop"] ["A"] "B" 0 tbl' = Normal tbl'.
Proof.
  intros tbl'.
  apply (setTransitions_idempotent es5 ["go"; "stop"] ["A"] "B" 0 ∅ tbl').
  by_compute.
Defined.

(** X4. The order of the names and of the states in a registration does
    not matter: a registration that completed gives the same table with the
    names and the states in any other order. *)
Theorem setTransitions_permutation E names names' states states' t a (tbl tbl' : Table) :
  names ≡ₚ names' → states ≡ₚ states' →
  setTransitions E names states t a tbl = Normal tbl' →
  setTransitions E names' states' t a tbl = Normal tbl'.
Proof.
  unfold setTransitions. intros Hn Hs Hreg.
  destruct (addPendingTransitions_lookup E names states t a tbl tbl' Hreg) as [Hlook Hok].
  destruct (addPendingTransitions_completes E names' states' t a tbl) as [tbl'' Hreg'].
  { destruct names as [|n names]; [left; by apply Permutation_nil_l in Hn|].
    destruct states as [|s states]; [right; left; by apply Permutation_nil_l in Hs|].
    right. right. destruct Hok as [Hnames Hstates]; [done|done|].
    by rewrite <- Hn, <- Hs. }
  rewrite Hreg'. f_equal. apply map_eq. intros k.
  destruct (addPendingTransitions_lookup E names' states' t a tbl tbl'' Hreg') as [Hlook' _].
  rewrite Hlook', Hlook.
  rewrite (decide_ext _ (k ∈ names ∧ registrable E tbl k)) by (by rewrite Hn).
  case_decide; [|done]. f_equal. apply map_eq. intros s.
  rewrite !setAll_lookup. by rewrite (decide_ext _ (s ∈ states)) by (by rewrite Hs).
Qed.

Lemma setTransitions_permutation_witness :
  let tbl' : Table :=
    {[ "clear" := {[ "postSearchWithoutContext" :=
                       {| endState := "preSearchWithoutContent"; action := 6 |};
                     "postSearchWithContext" :=
                       {| endState := "preSearchWithoutContent"; action := 6 |} ]} ]} in
  setTransitions es5 ["clear"] ["postSearchWithContext"; "postSearchWithoutContext"]
    "preSearchWithoutContent" 6 ∅ = Normal tbl'.
Proof.
  intros tbl'.
  apply (setTransitions_permutation es5 ["clear"] ["clear"]
           ["postSearchWithoutContext"; "postSearchWithContext"]
           ["postSearchWithContext"; "postSearchWithoutContext"]
           "preSearchWithoutContent" 6 ∅ tbl').
  - done.
  - apply perm_swap.
  - by_compute.
Defined.

(** X5. A bulk registration is not atomic.  When [length] is among the
    states of a registrable name, the states before it are registered, a
    RangeError is thrown at [length], and the states after it are not
    reached. *)
Theorem setTransitions_throws_at_length E n before after t a (tbl : Table) :
  registrable E tbl n →
  setTransitions E [n] (before ++ "length" :: after) t a tbl =
  match setTransitions E [n] before t a tbl with
  | Normal t1 => Threw RangeError t1
  | other => other
  end.
Proof.
  intros Hn. unfold setTransitions. cbn [addPendingTransitions].
  assert (∃ inner t1, ensureName E tbl n = Normal t1 ∧ get E t1 n = Own inner)
    as (inner & t1 & -> & Hg).
  { pose proof Hn as [Habs|[inner Hg]]%registrable_get.
    - destruct (ensureName_absent E tbl n Habs) as [-> Hown]. eauto.
    - rewrite ensureName_present by congruence. eauto. }
  simpl. rewrite statesLoop_app.
  destruct (statesLoop E n before _ t1) as [t2| |] eqn:Hloop; simpl; try done.
  destruct (statesLoop_keeps_Own E n before _ t1 t2 inner Hg Hloop) as [inner' Hg'].
  unfold assignCell, setCell. rewrite Hg'. by rewrite decide_True.
Qed.

Lemma setTransitions_throws_at_length_witness :
  setTransitions es5 ["go"] (["A"] ++ "length" :: ["B"]) "C" 0 ∅ =
  match setTransitions es5 ["go"] ["A"] "C" 0 ∅ with
  | Normal t1 => Threw RangeError t1
  | other => other
  end.
Proof.
  apply (setTransitions_throws_at_length es5 "go" ["A"] ["B"] "C" 0 ∅).
  split; [done|]. intros _. vm_compute. reflexivity.
Defined.

(** What that call leaves behind: the entry for [A], none for [B]. *)
Example setTransitions_throws_at_length_run :
  match setTransitions es5 ["go"] ["A"; "length"; "B"] "C" 0 ∅ with
  | Threw RangeError t1 =>
      entryAt es5 t1 "go" "A" = Some {| endState := "C"; action := 0 |}
      ∧ entryAt es5 t1 "go" "B" = None
  | _ => False
  end.
Proof. vm_compute. done. Qed.

(** ** Configurations *)

Lemma registrations_invariant E (P : Table → Prop) rs (t t' : Table) :
  (∀ names states es cb t1 t2,
     P t1 → stateOf (addPendingTransitions E names states es cb t1) = Some t2 → P t2) →
  P t → registrations E rs t = Some t' → P t'.
Proof.
  intros Hstep. revert t. induction rs as [|[[[names states] es] cb] rs IH]; intros t Ht.
  - simpl. by intros [= <-].
  - simpl. unfold setTransitions.
    destruct (stateOf (addPendingTransitions E names states es cb t)) as [t2|] eqn:Hs;
      [|done].
    apply IH. by eapply Hstep.
Qed.

Lemma registrations_namesPlain E rs (tbl : Table) :
  registrations E rs ∅ = Some tbl → namesPlain E tbl.
Proof.
  apply (registrations_invariant E (namesPlain E) rs ∅ tbl); [|by intros k [? ?]].
  intros names states es cb t1 t2 Hp Hs.
  by eapply addPendingTransitions_namesPlain.
Qed.


Lemma widgetTable_registered :
  registrations es5 widgetRegistrations ∅ = Some widgetTable.
Proof.
  unfold widgetTable.
  assert (is_Some (registrations es5 widgetRegistrations ∅)) as [t ->] by by_compute.
  done.
Qed.


(** ** What a run keeps *)

Lemma currentState_set_cases (w : World) r r' v :
  currentState (setCurrentState w r v) r' =
  if decide (r = r' ∧ is_Some (machines w !! r)) then v else currentState w r'.
Proof.
  unfold currentState, setCurrentState. simpl.
  destruct (decide (r = r')) as [<-|Hne].
  - rewrite list_lookup_alter_eq.
    destruct (machines w !! r) as [sm|] eqn:Hsm; simpl.
    + rewrite decide_True by eauto. by rewrite lookup_insert_eq.
    + rewrite decide_False; [done|]. by intros [_ [? ?]].
  - rewrite list_lookup_alter_ne by done. rewrite decide_False; [done|]. naive_solver.
Qed.

Section RunInvariant.
Context (E : Engine) (script : Action → list Arg → list Cmd).

(** A relation between the worlds before and after, kept by the two
    writes of [newTransition]. *)
Context (P : World → World → Prop).
Context (Hrefl : ∀ w, P w w).
Context (Htrans : ∀ w1 w2 w3, P w1 w2 → P w2 w3 → P w1 w3).
Context (Hset : ∀ w r n inner e,
  get E (transitions w) n = Own inner →
  get E inner (toKey E (currentState w r)) = Own e →
  P w (setCurrentState w r (VString (endState e)))).
Context (Hundef : ∀ w r n inner,
  get E (transitions w) n = Own inner →
  get E inner (toKey E (currentState w r)) = Inherited →
  P w (setCurrentState w r VUndefined)).

Lemma runCmds_invariant call cmds (w : World) tr res w' tr' :
  (∀ w o n args tr res w' tr',
     call w o n args tr = Some res → stateOf res = Some (w', tr') → P w w') →
  runCmds E call cmds w tr = Some res → stateOf res = Some (w', tr') → P w w'.
Proof.
  intros Hcall. revert w tr. induction cmds as [|c cmds IH]; intros w tr; simpl.
  - intros [= <-] [= <- <-]. done.
  - destruct c as [r|r k xs]; [apply IH|].
    destruct (machines w !! r) as [sm|]; [|by intros [= <-]].
    destruct (sm !! k) as [[| |o n']|].
    + intros [= <-] [= <- <-]. done.
    + intros [= <-] [= <- <-]. done.
    + destruct (call w o n' xs tr) as [[[w1 tr1]|err [w1 tr1]|]|] eqn:Hc.
      * intros Hrun Hres. apply (Htrans w w1 w').
        -- by apply (Hcall w o n' xs tr _ w1 tr1 Hc).
        -- by apply (IH w1 tr1).
      * intros [= <-] [= <- <-]. by apply (Hcall w o n' xs tr _ w1 tr1 Hc).
      * by intros [= <-].
      * done.
    + destruct (objectProto E k); [by intros [= <-]|].
      intros [= <-] [= <- <-]. done.
Qed.

Lemma newTransition_invariant fuel (w : World) o n args tr res w' tr' :
  newTransition E script fuel w o n args tr = Some res →
  stateOf res = Some (w', tr') → P w w'.
Proof.
  revert w o n args tr res w' tr'.
  induction fuel as [|fuel IH]; intros w o n args tr res w' tr'; simpl; [done|].
  destruct (get E (transitions w) n) as [inner| | |] eqn:Hn; try (by intros [= <-]).
  - destruct (get E inner _) as [e| | |] eqn:Hs.
    + intros Hrun Hres.
      apply (Htrans w (setCurrentState w o (VString (endState e))) w').
      * by eapply Hset.
      * eapply runCmds_invariant; [exact IH|exact Hrun|exact Hres].
    + intros [= <-] [= <- <-]. by eapply Hundef.
    + by intros [= <-].
    + intros [= <-] [= <- <-]. done.
  - intros [= <-] [= <- <-]. done.
Qed.

Lemma exec_invariant fuel cmds (w : World) res w' tr' :
  exec E script fuel cmds w = Some res → stateOf res = Some (w', tr') → P w w'.
Proof.
  apply runCmds_invariant. intros w0 o n args tr res0 w0' tr0'.
  apply newTransition_invariant.
Qed.

End RunInvariant.

Section ReturnInvariant.
Context (E : Engine) (script : Action → list Arg → list Cmd).

(** A relation kept by the write of a matched dispatch: it holds of the
    runs that return. *)
Context (P : World → World → Prop).
Context (Hrefl : ∀ w, P w w).
Context (Htrans : ∀ w1 w2 w3, P w1 w2 → P w2 w3 → P w1 w3).
Context (Hset : ∀ w r n inner e,
  get E (transitions w) n = Own inner →
  get E inner (toKey E (currentState w r)) = Own e →
  P w (setCurrentState w r (VString (endState e)))).

Lemma runCmds_returns call cmds (w : World) tr w' tr' :
  (∀ w o n args tr w' tr', call w o n args tr = Some (Normal (w', tr')) → P w w') →
  runCmds E call cmds w tr = Some (Normal (w', tr')) → P w w'.
Proof.
  intros Hcall. revert w tr. induction cmds as [|c cmds IH]; intros w tr; simpl.
  - intros [= <- <-]. done.
  - destruct c as [r|r k xs]; [apply IH|].
    destruct (machines w !! r) as [sm|]; [|done].
    destruct (sm !! k) as [[| |o n']|]; try done.
    + destruct (call w o n' xs tr) as [[[w1 tr1]|err [w1 tr1]|]|] eqn:Hc; try done.
      intros Hrun. apply (Htrans w w1 w').
      * by apply (Hcall w o n' xs tr w1 tr1 Hc).
      * by apply (IH w1 tr1).
    + by destruct (objectProto E k).
Qed.

Lemma newTransition_returns fuel (w : World) o n args tr w' tr' :
  newTransition E script fuel w o n args tr = Some (Normal (w', tr')) → P w w'.
Proof.
  revert w o n args tr w' tr'.
  induction fuel as [|fuel IH]; intros w o n args tr w' tr'; simpl; [done|].
  destruct (get E (transitions w) n) as [inner| | |] eqn:Hn; try done.
  - destruct (get E inner _) as [e| | |] eqn:Hs; try done.
    + intros Hrun.
      apply (Htrans w (setCurrentState w o (VString (endState e))) w').
      * by eapply Hset.
      * eapply runCmds_returns; [exact IH|exact Hrun].
    + intros [= <- <-]. done.
  - intros [= <- <-]. done.
Qed.

Lemma exec_returns fuel cmds (w : World) w' tr' :
  exec E script fuel cmds w = Some (Normal (w', tr')) → P w w'.
Proof.
  apply runCmds_returns. intros w0 o n args tr w0' tr0'. apply newTransition_returns.
Qed.

End ReturnInvariant.





Lemma statesFromTable_trans E (w1 w2 w3 : World) :
  statesFromTable E w1 w2 → statesFromTable E w2 w3 → statesFromTable E w1 w3.
Proof.
  intros [Ht12 Hc12] [Ht23 Hc23]. split; [congruence|]. intros r.
  destruct (Hc23 r) as [->|[->|(n & s & e & He & ->)]].
  - apply Hc12.
  - by right; left.
  - right; right. exists n, s, e. by rewrite <- Ht12.
Qed.

Lemma endStatesOnly_trans E (w1 w2 w3 : World) :
  endStatesOnly E w1 w2 → endStatesOnly E w2 w3 → endStatesOnly E w1 w3.
Proof.
  intros [Ht12 Hc12] [Ht23 Hc23]. split; [congruence|]. intros r.
  destruct (Hc23 r) as [->|(n & s & e & He & ->)].
  - apply Hc12.
  - right. exists n, s, e. by rewrite <- Ht12.
Qed.

(** X8. After a run that returns, the [currentState] of each state
    machine is the value it had or the end state of an entry of the table.
    After a run that ends in any way, an exception included, it is one of
    these or [undefined]. *)
Theorem run_states_from_table E script fuel cmds (w : World) res w' tr' :
  exec E script fuel cmds w = Some res →
  stateOf res = Some (w', tr') →
  statesFromTable E w w'
  ∧ (res = Normal (w', tr') → endStatesOnly E w w').
Proof.
  intros Hrun Hres. split.
  - revert Hrun Hres. apply (exec_invariant E script (statesFromTable E)).
    + intros w0. split; [done|]. intros r. by left.
    + apply statesFromTable_trans.
    + intros w0 r n inner e Hn Hs. split; [done|]. intros r'.
      rewrite currentState_set_cases. case_decide; [|by left].
      right; right. exists n, (toKey E (currentState w0 r)), e. split; [|done].
      unfold entryAt. by rewrite Hn, Hs.
    + intros w0 r n inner _ _. split; [done|]. intros r'.
      rewrite currentState_set_cases. case_decide; [by right; left|by left].
  - intros ->. revert Hrun. apply (exec_returns E script (endStatesOnly E)).
    + intros w0. split; [done|]. intros r. by left.
    + apply endStatesOnly_trans.
    + intros w0 r n inner e Hn Hs. split; [done|]. intros r'.
      rewrite currentState_set_cases. case_decide; [|by left].
      right. exists n, (toKey E (currentState w0 r)), e. split; [|done].
      unfold entryAt. by rewrite Hn, Hs.
Qed.

Lemma run_states_from_table_witness :
  statesFromTable es5 twoMachines twoMachinesAfterSearch.1
  ∧ (Normal twoMachinesAfterSearch
     = Normal (twoMachinesAfterSearch.1, twoMachinesAfterSearch.2) →
     endStatesOnly es5 twoMachines twoMachinesAfterSearch.1).
Proof.
  refine (run_states_from_table es5 searchScript 3
            [Fire 0 "search" [AString "foo"]] twoMachines
            (Normal twoMachinesAfterSearch)
            twoMachinesAfterSearch.1 twoMachinesAfterSearch.2 _ _).
  - by_compute.
  - done.
Defined.

(** ** What the factory keeps true of its state machines *)




Lemma wellFormed_build E init (w : World) :
  wellFormed E w → wellFormed E (build init w).1.
Proof.
  intros [Hplain Hm]. destruct (build_spec init w) as (sm' & Hb & Hsm'). rewrite Hb.
  split; [done|]. simpl. intros r sm Hsm.
  destruct (decide (r < length (machines w))) as [Hlt|Hge].
  - rewrite lookup_app_l in Hsm by done. by apply Hm.
  - rewrite lookup_app_r in Hsm by lia.
    destruct (r - length (machines w)) as [|m] eqn:Hd; [|done].
    injection Hsm as <-. assert (r = length (machines w)) as -> by lia. split.
    + rewrite Hsm'. case_decide; [eauto|]. rewrite decide_True by done. eauto.
    + intros k o n. rewrite Hsm'. repeat case_decide; try done.
      by intros [= <- <-].
Qed.

Lemma wellFormed_set E (w : World) r v :
  (∀ o n, v ≠ VTransition o n) → wellFormed E w → wellFormed E (setCurrentState w r v).
Proof.
  intros Hv [Hplain Hm]. split; [done|]. simpl. intros r' sm' Hsm'.
  destruct (decide (r = r')) as [<-|Hne].
  - rewrite list_lookup_alter_eq in Hsm'.
    destruct (machines w !! r) as [sm|] eqn:Hsm; [|done].
    simpl in Hsm'. injection Hsm' as <-. destruct (Hm r sm Hsm) as [Hcs Hcl]. split.
    + rewrite lookup_insert_eq. eauto.
    + intros k o n. destruct (decide (k = "currentState")) as [->|Hk].
      * rewrite lookup_insert_eq. intros [= ->]. by destruct (Hv o n).
      * rewrite lookup_insert_ne by done. apply Hcl.
  - rewrite list_lookup_alter_ne in Hsm' by done. by apply Hm.
Qed.



Lemma runCmds_Fire_closure E call (w : World) r sm k o n xs tr :
  machines w !! r = Some sm →
  sm !! k = Some (VTransition o n) →
  runCmds E call [Fire r k xs] w tr = call w o n xs tr.
Proof.
  intros Hsm Hk. simpl. rewrite Hsm, Hk.
  by destruct (call w o n xs tr) as [[[??]|??|]|].
Qed.

Lemma absent_entry_returns E script (w : World) r sm k o n s args tr fuel :
  wellFormed E w →
  machines w !! r = Some sm →
  sm !! k = Some (VTransition o n) →
  sm !! "currentState" = Some (VString s) →
  plain E s →
  entryAt E (transitions w) k s = None →
  runCmds E (newTransition E script (S fuel)) [Fire r k args] w tr = Some (Normal (w, tr)).
Proof.
  intros [Hplain Hm] Hsm Hk Hs Hps Hnone.
  destruct (Hm r sm Hsm) as [_ Hcl]. destruct (Hcl k o n Hk) as (-> & -> & [inner Hin]).
  rewrite (runCmds_Fire_closure E _ w r sm n r n) by done.
  assert (get E (transitions w) n = Own inner) as Hg.
  { apply get_Own; [|done]. apply Hplain. eauto. }
  assert (currentState w r = VString s) as Hcur.
  { unfold currentState. by rewrite Hsm, Hs. }
  apply newTransition_absent. right. exists inner. split; [done|].
  rewrite Hcur. simpl. rewrite (get_plain E inner s Hps).
  unfold entryAt in Hnone. rewrite Hg, (get_plain E inner s Hps) in Hnone.
  by destruct (inner !! s).
Qed.

(** X10. In a well formed world, calling a generated function of a state
    machine whose state is a plain string, with no entry in the table for
    that name and state, does nothing: the call returns, and the world and
    the events are as they were. *)
Theorem missing_entry_is_noop E script (w : World) r sm k o n s args fuel :
  wellFormed E w →
  machines w !! r = Some sm →
  sm !! k = Some (VTransition o n) →
  sm !! "currentState" = Some (VString s) →
  plain E s →
  entryAt E (transitions w) k s = None →
  callTransition E script (S fuel) w r k args = Some (Normal (w, [])).
Proof.
  intros Hwf Hsm Hk Hs Hps Hnone. unfold callTransition, exec.
  by apply (absent_entry_returns E script w r sm k o n s).
Qed.

Lemma missing_entry_is_noop_witness :
  callTransition es5 quiet 1 widgetWorld 0 "clear" [] = Some (Normal (widgetWorld, [])).
Proof.
  refine (missing_entry_is_noop es5 quiet widgetWorld 0 widgetMachine
            "clear" 0 "clear" "empty" [] 0 _ _ _ _ _ _).
  - apply wellFormed_build. split.
    + apply (registrations_namesPlain es5 widgetRegistrations), widgetTable_registered.
    + intros r sm Hsm. by destruct r.
  - by_compute.
  - by_compute.
  - by_compute.
  - split; [done|]. by_compute.
  - by_compute.
Defined.

(** ** The state machine of the search box *)

Lemma runCmds_app E call l1 l2 (w : World) tr :
  runCmds E call (l1 ++ l2) w tr =
  match runCmds E call l1 w tr with
  | Some (Normal (w', tr')) => runCmds E call l2 w' tr'
  | other => other
  end.
Proof.
  revert w tr. induction l1 as [|c l1 IH]; intros w tr; simpl; [done|].
  destruct c as [r|r k xs]; [apply IH|].
  destruct (machines w !! r) as [sm|]; [|done].
  destruct (sm !! k) as [[| |o n]|]; try done.
  - by destruct (call w o n xs tr) as [[[w1 tr1]|err [w1 tr1]|]|].
  - by destruct (objectProto E k).
Qed.

Lemma setCurrentState_twice (w : World) r a b :
  setCurrentState (setCurrentState w r a) r b = setCurrentState w r b.
Proof.
  unfold setCurrentState. simpl. f_equal. apply list_eq. intros i.
  destruct (decide (r = i)) as [<-|Hne].
  - rewrite !list_lookup_alter_eq. destruct (machines w !! r); simpl; [|done].
    by rewrite insert_insert_eq.
  - by rewrite !list_lookup_alter_ne.
Qed.

Lemma widgetWorld_wellFormed : wellFormed es5 widgetWorld.
Proof.
  apply wellFormed_build. split.
  - apply (registrations_namesPlain es5 widgetRegistrations), widgetTable_registered.
  - intros r sm Hsm. by destruct r.
Qed.

Lemma widgetWorld_machines : machines widgetWorld = [widgetMachine].
Proof. by_compute. Qed.

Lemma widgetWorld_transitions : transitions widgetWorld = widgetTable.
Proof. by_compute. Qed.

Ltac widget_cases H :=
  unfold widgetStates, widgetNames in H;
  repeat (apply elem_of_cons in H as [->|H]);
  try (by apply elem_of_nil in H).

Lemma widgetMachine_callable n :
  n ∈ widgetNames → n ≠ "currentState" ∧ widgetMachine !! n = Some (VTransition 0 n).
Proof. intros Hn. widget_cases Hn; (split; [done|by_compute]). Qed.

Lemma widgetStates_plain s : s ∈ widgetStates → plain es5 s.
Proof. intros Hs. widget_cases Hs; (split; [done|by_compute]). Qed.

Lemma widgetNext_closed s n :
  s ∈ widgetStates → n ∈ widgetNames → widgetNext s n ∈ widgetStates.
Proof. intros Hs Hn. widget_cases Hs; widget_cases Hn; by_compute. Qed.

Lemma widgetAt_machine s :
  machines (widgetAt s) !! 0 = Some (<["currentState" := VString s]> widgetMachine).
Proof.
  unfold widgetAt, setCurrentState. cbn [machines].
  by rewrite list_lookup_alter_eq, widgetWorld_machines.
Qed.

Lemma widgetAt_transitions s : transitions (widgetAt s) = widgetTable.
Proof.
  unfold widgetAt, setCurrentState. cbn [transitions]. apply widgetWorld_transitions.
Qed.

(** One call on the state machine of the widget, from any of its states. *)
Lemma widget_step s n args tr fuel :
  s ∈ widgetStates → n ∈ widgetNames →
  runCmds es5 (newTransition es5 quiet (S fuel)) [Fire 0 n args] (widgetAt s) tr =
  Some (Normal (widgetAt (widgetNext s n),
                match entryAt es5 widgetTable n s with
                | Some e => tr ++ [Applied (action e) args]
                | None => tr
                end)).
Proof.
  intros Hs Hn. destruct (widgetMachine_callable n Hn) as [Hne Hcall].
  pose proof (widgetAt_machine s) as Hsm.
  assert ((<["currentState" := VString s]> widgetMachine) !! n = Some (VTransition 0 n))
    as Hk by (by rewrite lookup_insert_ne).
  assert (currentState (widgetAt s) 0 = VString s) as Hcur.
  { unfold currentState. by rewrite Hsm, lookup_insert_eq. }
  unfold widgetNext.
  destruct (entryAt es5 widgetTable n s) as [e|] eqn:He.
  - rewrite (runCmds_Fire_closure es5 _ _ 0 _ n 0 n args tr Hsm Hk).
    rewrite (newTransition_matched es5 quiet (widgetAt s) 0 n e).
    + cbn [quiet runCmds]. unfold widgetAt. rewrite setCurrentState_twice. reflexivity.
    + rewrite Hcur, widgetAt_transitions. exact He.
  - apply (absent_entry_returns es5 quiet (widgetAt s) 0
             (<["currentState" := VString s]> widgetMachine) n 0 n s).
    + apply wellFormed_set; [discriminate|]. apply widgetWorld_wellFormed.
    + exact Hsm.
    + exact Hk.
    + apply lookup_insert_eq.
    + by apply widgetStates_plain.
    + rewrite widgetAt_transitions. exact He.
Qed.

Lemma widget_run calls s tr fuel :
  s ∈ widgetStates → Forall (λ c, c.1 ∈ widgetNames) calls →
  ∃ tr', runCmds es5 (newTransition es5 quiet (S fuel)) (fireAll 0 calls) (widgetAt s) tr
         = Some (Normal (widgetAt (foldl widgetNext s calls.*1), tr'))
    ∧ foldl widgetNext s calls.*1 ∈ widgetStates.
Proof.
  revert s tr. induction calls as [|[n args] calls IH]; intros s tr Hs Hall.
  - simpl. eauto.
  - apply Forall_cons in Hall as [Hn Hall]. simpl in Hn.
    change (fireAll 0 ((n, args) :: calls)) with ([Fire 0 n args] ++ fireAll 0 calls).
    rewrite runCmds_app, (widget_step s n args tr fuel Hs Hn).
    apply IH; [by apply widgetNext_closed|done].
Qed.

(** X11. The state machine that [Search] configures never fails and never
    leaves its five states: from any of them, any sequence of calls of
    [focus], [unfocus], [search], [clear] and [change], with any arguments,
    returns, and the state machine is where the table sends it, call by
    call, among the five states. *)
Theorem widget_calls_stay_in_states calls s fuel :
  s ∈ widgetStates →
  Forall (λ c, c.1 ∈ widgetNames) calls →
  ∃ tr, exec es5 quiet (S fuel) (fireAll 0 calls) (widgetAt s)
        = Some (Normal (widgetAt (foldl widgetNext s calls.*1), tr))
    ∧ foldl widgetNext s calls.*1 ∈ widgetStates.
Proof. intros Hs Hall. by apply widget_run. Qed.

Lemma widget_calls_stay_in_states_witness :
  ∃ tr, exec es5 quiet 1
          (fireAll 0 [("focus", []); ("change", []); ("search", [AString "foo"]);
                      ("search", [AString "bar"]); ("clear", [])])
          (widgetAt "empty")
        = Some (Normal
            (widgetAt (foldl widgetNext "empty"
                         ["focus"; "change"; "search"; "search"; "clear"]), tr))
    ∧ foldl widgetNext "empty" ["focus"; "change"; "search"; "search"; "clear"]
      ∈ widgetStates.
Proof.
  apply (widget_calls_stay_in_states
           [("focus", []); ("change", []); ("search", [AString "foo"]);
            ("search", [AString "bar"]); ("clear", [])] "empty" 0).
  - by_compute.
  - by_compute.
Defined.

(** That run: the second [search] finds no entry and applies nothing. *)
Example widget_search_twice :
  observable
    (exec es5 quiet 1
       (fireAll 0 [("focus", []); ("change", []); ("search", [AString "foo"]);
                   ("search", [AString "bar"]); ("clear", [])])
       (widgetAt "empty"))
  = Some (Normal
      ([ <["currentState" := VString "preSearchWithoutContent"]> widgetMachine ],
       [ Applied 0 []; Applied 7 []; Applied 5 [AString "foo"]; Applied 6 [] ])).
Proof. by_compute. Qed.

Lemma widget_to_empty s :
  s ∈ widgetStates →
  ∃ ns, Forall (λ n, n ∈ widgetNames) ns ∧ foldl widgetNext s ns = "empty".
Proof.
  intros Hs. widget_cases Hs.
  - exists []. split; by_compute.
  - exists ["unfocus"]. split; by_compute.
  - exists ["clear"; "unfocus"]. split; by_compute.
  - exists ["clear"; "unfocus"]. split; by_compute.
  - exists ["clear"; "unfocus"]. split; by_compute.
Qed.

Lemma widget_from_empty s :
  s ∈ widgetStates →
  ∃ ns, Forall (λ n, n ∈ widgetNames) ns ∧ foldl widgetNext "empty" ns = s.
Proof.
  intros Hs. widget_cases Hs.
  - exists []. split; by_compute.
  - exists ["focus"]. split; by_compute.
  - exists ["focus"; "change"]. split; by_compute.
  - exists ["search"; "focus"]. split; by_compute.
  - exists ["search"]. split; by_compute.
Qed.

(** X12. The state machine of [Search] has no dead end and no dead state:
    from each of the five states, some sequence of calls of its transition
    functions takes it to each of the five states. *)
Theorem widget_strongly_connected s s' fuel :
  s ∈ widgetStates → s' ∈ widgetStates →
  ∃ calls tr,
    Forall (λ c, c.1 ∈ widgetNames) calls
    ∧ exec es5 quiet (S fuel) (fireAll 0 calls) (widgetAt s)
      = Some (Normal (widgetAt s', tr)).
Proof.
  intros Hs Hs'.
  destruct (widget_to_empty s Hs) as (ns1 & Hn1 & He1).
  destruct (widget_from_empty s' Hs') as (ns2 & Hn2 & He2).
  set (calls := map (λ n, (n, @nil Arg)) (ns1 ++ ns2)).
  assert (calls.*1 = ns1 ++ ns2) as Hfst.
  { unfold calls. rewrite <- list_fmap_compose. apply list_fmap_id. }
  assert (Forall (λ c, c.1 ∈ widgetNames) calls) as Hall.
  { unfold calls. apply Forall_fmap. simpl. by apply Forall_app. }
  destruct (widget_run calls s [] fuel Hs Hall) as (tr & Hrun & _).
  exists calls, tr. split; [done|].
  unfold exec. rewrite Hrun, Hfst, foldl_app, He1, He2. done.
Qed.

Lemma widget_strongly_connected_witness :
  ∃ calls tr,
    Forall (λ c, c.1 ∈ widgetNames) calls
    ∧ exec es5 quiet 1 (fireAll 0 calls) (widgetAt "postSearchWithoutContext")
      = Some (Normal (widgetAt "preSearchWithContent", tr)).
Proof.
  apply (widget_strongly_connected "postSearchWithoutContext" "preSearchWithContent" 0).
  - by_compute.
  - by_compute.
Defined.
